(** * myersBriggsNLPAnalysis: text preprocessing and evaluation helpers

    A shallow embedding of [scripts/helper_functions.py] and of the
    dispatcher and grid search of [scripts/NLPAnalysis.py], with the
    properties the specification states about them.

    Python strings are lists of characters; a character is a code point
    below 256 (Rocq's [ascii]), classified the way Python's [re] and [str]
    classify the Latin-1 range.  Library calls whose result depends on data
    outside the repository (the NLTK stopword corpus, the scores computed
    by [GridSearchCV], [cpu_count]) are parameters of the functions that
    use them. *)

From Stdlib Require Import Ascii String QArith Sorted.
From stdpp Require Import gmap strings list.

Local Open Scope nat_scope.

Abbreviation str := (list ascii).

(** A Python string literal. *)
Definition py (x : string) : str := list_ascii_of_string x.

(** Uncaught Python exceptions of the modelled code. *)
Inductive exn : Type :=
| ValueError
| KeyError
| NameError.

Inductive result (A : Type) : Type :=
| Ok (a : A)
| Raise (e : exn).
Arguments Ok {A} a.
Arguments Raise {A} e.

(** ** Characters *)

Module Chars.

Definition code (c : ascii) : N := N_of_ascii c.

Definition in_range (lo hi : N) (c : ascii) : bool :=
  ((lo <=? code c) && (code c <=? hi))%N.

Definition is_char (a c : ascii) : bool := Ascii.eqb a c.

Definition one_of (l : str) (c : ascii) : bool := existsb (Ascii.eqb c) l.

(** [str.lower] and [str.upper] on one character. *)
Definition lower_char (c : ascii) : ascii :=
  if in_range 65 90 c || in_range 192 214 c || in_range 216 222 c
  then ascii_of_N (code c + 32) else c.

Definition upper_char (c : ascii) : ascii :=
  if in_range 97 122 c || in_range 224 246 c || in_range 248 254 c
  then ascii_of_N (code c - 32) else c.

(** [\s]: the characters for which [str.isspace] holds. *)
Definition is_space (c : ascii) : bool :=
  in_range 9 13 c || in_range 28 32 c || is_char (ascii_of_N 133) c
  || is_char (ascii_of_N 160) c.

(** [\d]: decimal digits. *)
Definition is_digit (c : ascii) : bool := in_range 48 57 c.

(** [\w]: the characters for which [str.isalnum] holds, and the underscore. *)
Definition is_word (c : ascii) : bool :=
  in_range 48 57 c || in_range 65 90 c || in_range 97 122 c
  || is_char "_" c
  || one_of (map ascii_of_N [170; 178; 179; 181; 185; 186; 188; 189; 190]%N) c
  || in_range 192 214 c || in_range 216 246 c || in_range 248 255 c.

(** A character class or literal compiled with [re.IGNORECASE]. *)
Definition icase (p : ascii -> bool) (c : ascii) : bool :=
  p (lower_char c) || p (upper_char c).

End Chars.

(** ** A backtracking matcher with Python's priorities *)

Module Regex.

Inductive regex : Type :=
| Eps
| Chr (p : ascii -> bool)
| Seq (a b : regex)
| Alt (a b : regex)
| Star (a : regex).

Definition Plus (a : regex) : regex := Seq a (Star a).
Definition Opt (a : regex) : regex := Alt a Eps.

(** A literal, one character after the other. *)
Fixpoint Lit (p : ascii -> ascii -> bool) (l : str) : regex :=
  match l with
  | [] => Eps
  | c :: l' => Seq (Chr (p c)) (Lit p l')
  end.

Fixpoint Alts (l : list regex) (last : regex) : regex :=
  match l with
  | [] => last
  | a :: l' => Alt a (Alts l' last)
  end.

(** The greedy loop of [a*]: another iteration first, then the rest of the
    pattern.  An iteration has to consume input; [n] bounds the number of
    iterations by the length of the subject. *)
Fixpoint star_loop (body : str -> (str -> option str) -> option str)
    (k : str -> option str) (n : nat) (s : str) {struct n} : option str :=
  match n with
  | O => k s
  | S n' =>
      match body s (fun s' => if length s' <? length s
                              then star_loop body k n' s' else None) with
      | Some x => Some x
      | None => k s
      end
  end.

(** [rmatch r s k] matches [r] at the start of [s] and hands the rest of
    the subject to [k]; when [k] fails the matcher backtracks into [r].
    The result is the first success in the order a backtracking engine
    tries the alternatives: left alternative first, longest repetition
    first. *)
Fixpoint rmatch (r : regex) (s : str) (k : str -> option str)
    {struct r} : option str :=
  match r with
  | Eps => k s
  | Chr p =>
      match s with
      | c :: s' => if p c then k s' else None
      | [] => None
      end
  | Seq a b => rmatch a s (fun s' => rmatch b s' k)
  | Alt a b =>
      match rmatch a s k with
      | Some x => Some x
      | None => rmatch b s k
      end
  | Star a => star_loop (rmatch a) k (length s) s
  end.

(** Length of the match of [r] at the start of [s]. *)
Definition match_at (r : regex) (s : str) : option nat :=
  match rmatch r s Some with
  | Some rest => Some (length s - length rest)
  | None => None
  end.

(** [Pattern.findall] for a pattern whose only group is the whole match:
    scan from the left, emit the match at the first position that has one
    and go on behind it.  [skip] counts the characters of the subject that
    still belong to the last match. *)
Fixpoint findall_from (r : regex) (skip : nat) (s : str) : list str :=
  match s with
  | [] =>
      match skip, rmatch r [] Some with
      | O, Some _ => [[]]
      | _, _ => []
      end
  | c :: s' =>
      match skip with
      | S j => findall_from r j s'
      | O =>
          match match_at r s with
          | Some (S j) => take (S j) s :: findall_from r j s'
          | Some O => [] :: findall_from r 0 s'
          | None => findall_from r 0 s'
          end
      end
  end.

Definition findall (r : regex) (s : str) : list str := findall_from r 0 s.

(** [Pattern.search] for a pattern [^r$]: [r] at the start of the subject,
    up to its end or to a newline that ends it. *)
Definition at_end (s : str) : bool :=
  match s with
  | [] => true
  | [c] => Chars.is_char (ascii_of_N 10) c
  | _ => false
  end.

Definition search_anchored (r : regex) (s : str) : bool :=
  match rmatch r s (fun rest => if at_end rest then Some rest else None) with
  | Some _ => true
  | None => false
  end.

(** [consumes r]: every match of [r] takes at least one character. *)
Fixpoint consumes (r : regex) : bool :=
  match r with
  | Eps => false
  | Chr _ => true
  | Seq a b => consumes a || consumes b
  | Alt a b => consumes a && consumes b
  | Star _ => false
  end.

(** [Pattern.sub('', s)]: the subject without the matches [findall] would
    report; a character at which nothing matches is kept. *)
Fixpoint sub_from (r : regex) (skip : nat) (s : str) : str :=
  match s with
  | [] => []
  | c :: s' =>
      match skip with
      | S j => sub_from r j s'
      | O =>
          match match_at r s with
          | Some (S j) => sub_from r j s'
          | _ => c :: sub_from r 0 s'
          end
      end
  end.

Definition sub (r : regex) (s : str) : str := sub_from r 0 s.

End Regex.

(** ** Python built-ins the scripts use *)

Module Builtins.

Import Chars.

(** [str.lower]. *)
Definition lower (s : str) : str := map lower_char s.

(** [<=] on strings: lexicographic by code point. *)
Fixpoint str_leb (a b : str) : bool :=
  match a, b with
  | [], _ => true
  | _ :: _, [] => false
  | x :: a', y :: b' =>
      if (code x <? code y)%N then true
      else if (code y <? code x)%N then false
      else str_leb a' b'
  end.

Fixpoint insert_sorted (x : str) (l : list str) : list str :=
  match l with
  | [] => [x]
  | y :: l' => if str_leb y x then y :: insert_sorted x l' else x :: l
  end.

(** [sorted] on a list of strings. *)
Definition sorted (l : list str) : list str :=
  fold_left (fun acc x => insert_sorted x acc) l [].

(** [max(l, key = key)]: the first item is the candidate, a later item
    replaces it when its key is greater ([gtb] is [>] on the keys); an
    empty argument raises [ValueError]. *)
Definition py_max {A K : Type} (gtb : K -> K -> bool) (key : A -> K)
    (l : list A) : result A :=
  match l with
  | [] => Raise ValueError
  | x :: l' =>
      Ok (fold_left (fun best y => if gtb (key y) (key best) then y else best)
                    l' x)
  end.

(** [s.split('|||')]: the pieces between the occurrences of the delimiter,
    found from the left without overlap; [cur] is the piece being read. *)
Fixpoint split_bars (cur : str) (s : str) : list str :=
  match s with
  | [] => [cur]
  | a :: s1 =>
      match s1 with
      | b :: c :: rest =>
          if is_char "|" a && is_char "|" b && is_char "|" c
          then cur :: split_bars [] rest
          else split_bars (cur ++ [a]) s1
      | _ => split_bars (cur ++ [a]) s1
      end
  end.

(** ['|||'.join(pieces)]. *)
Fixpoint join_bars (pieces : list str) : str :=
  match pieces with
  | [] => []
  | [x] => x
  | x :: rest => x ++ py "|||" ++ join_bars rest
  end.

(** [string.punctuation]. *)
Definition punctuation : str :=
  py "!" ++ [ascii_of_N 34] ++ py "#$%&'()*+,-./:;<=>?@[\]^_`{|}~".

(** [numpy.array_split(ary, sections)] along the rows: the first
    [len % sections] parts have one row more than the others. *)
Fixpoint chunks {A : Type} (sizes : list nat) (l : list A) : list (list A) :=
  match sizes with
  | [] => []
  | n :: sizes' => take n l :: chunks sizes' (drop n l)
  end.

Definition array_split {A : Type} (ary : list A) (sections : nat)
    : result (list (list A)) :=
  if sections =? 0 then Raise ValueError
  else
    let Neach_section := length ary / sections in
    let extras := length ary mod sections in
    let section_sizes :=
      replicate extras (Neach_section + 1)
      ++ replicate (sections - extras) Neach_section in
    Ok (chunks section_sizes ary).

(** [s.split(d)] for a delimiter of one character. *)
Fixpoint split_char (d : ascii) (cur : str) (s : str) : list str :=
  match s with
  | [] => [cur]
  | c :: s' =>
      if is_char d c then cur :: split_char d [] s'
      else split_char d (cur ++ [c]) s'
  end.

(** [re.sub(d, '', s)] for a pattern that is one literal character. *)
Definition remove_char (d : ascii) (s : str) : str :=
  List.filter (fun c => negb (is_char d c)) s.

(** [s.strip()]: without the whitespace at both ends. *)
Fixpoint lstrip (s : str) : str :=
  match s with
  | [] => []
  | c :: s' => if is_space c then lstrip s' else s
  end.

Definition rstrip (s : str) : str := rev (lstrip (rev s)).

Definition strip (s : str) : str := rstrip (lstrip s).

(** [s.startswith(prefix)]. *)
Fixpoint startswith (s prefix : str) : bool :=
  match prefix, s with
  | [], _ => true
  | _ :: _, [] => false
  | a :: prefix', c :: s' => Ascii.eqb a c && startswith s' prefix'
  end.

End Builtins.

(** ** scripts/helper_functions.py *)

Module HelperFunctions.

Import Chars Regex Builtins.

(** A class [[...]] or a literal under [re.IGNORECASE], and the members of
    a class: listed characters, a range, a union.  [\d] and [\S] outside a
    class test the category of the character as it is. *)
Definition cls (p : ascii -> bool) : regex := Chr (icase p).
Definition chars (l : string) : ascii -> bool := one_of (py l).
Definition rng (lo hi : ascii) : ascii -> bool :=
  in_range (code lo) (code hi).
Definition por (p q : ascii -> bool) (c : ascii) : bool := p c || q c.

(** [emoticons_str]: eyes, optional nose, mouth. *)
Definition emoticons_str : regex :=
  Seq (cls (chars ":=;"))
      (Seq (Opt (cls (chars "oO-")))
           (cls (chars "D)](]/\OpPd"))).

Definition html_tags : regex :=
  Seq (cls (chars "<"))
      (Seq (Plus (cls (fun c => negb (is_char ">" c)))) (cls (chars ">"))).

Definition mentions : regex :=
  Seq (cls (chars "@")) (Plus (cls (por is_word (chars "_")))).

Definition hashtags : regex :=
  Seq (Plus (cls (chars "#")))
      (Seq (Plus (cls (por is_word (chars "_"))))
           (Seq (Star (cls (por is_word (chars "'_-"))))
                (Plus (cls (por is_word (chars "_")))))).

Definition urls : regex :=
  Seq (Lit (fun a => icase (is_char a)) (py "http"))
      (Seq (Opt (cls (chars "s")))
           (Seq (Lit (fun a => icase (is_char a)) (py "://"))
                (Plus (Alts [cls (rng "a" "z");
                             cls (rng "0" "9");
                             cls (por (rng "$" "_") (chars "@.&amp;+"));
                             cls (chars "!*(),")]
                            (Seq (cls (chars "%"))
                                 (Seq (cls (por (rng "0" "9") (rng "a" "f")))
                                      (cls (por (rng "0" "9") (rng "a" "f"))))))))).

Definition numbers : regex :=
  Seq (Plus (Seq (Plus (Chr is_digit)) (Opt (cls (chars ",")))))
      (Opt (Seq (Opt (cls (chars "."))) (Plus (Chr is_digit)))).

Definition dashed_words : regex :=
  Seq (cls (rng "a" "z"))
      (Seq (Plus (cls (por (rng "a" "z") (chars "'-_"))))
           (cls (rng "a" "z"))).

Definition other_words : regex := Plus (cls (por is_word (chars "_"))).

Definition anything_else : regex := Chr (fun c => negb (is_space c)).

(** [regex_str], in the order of the list. *)
Definition regex_str : list regex :=
  [emoticons_str; html_tags; mentions; hashtags; urls; numbers;
   dashed_words; other_words; anything_else].

(** [token_re]: the alternation of [regex_str]. *)
Definition token_re : regex :=
  Alts [emoticons_str; html_tags; mentions; hashtags; urls; numbers;
        dashed_words; other_words] anything_else.

(** [emoticon_re.search(token)]. *)
Definition emoticon_re_search (token : str) : bool :=
  search_anchored emoticons_str token.

(** *** Data frames *)

(** A row of the input frame: its index label and the columns ['type'] and
    ['posts']. *)
Record row : Type := Row { index : Z; type : str; posts : str }.

(** The frame [tokenize_data] returns: index label, then ['type'] and the
    token list in ['posts']. *)
Abbreviation token_frame := (list (Z * (str * list str))).

(** [pd.DataFrame(token_list, columns = columns)]: a fresh index 0, 1, ... *)
Definition DataFrame (token_list : list (str * list str)) : token_frame :=
  imap (fun i x => (Z.of_nat i, x)) token_list.

(** The rows of a frame without their index labels. *)
Definition values (df : token_frame) : list (str * list str) := map snd df.

(** [pd.concat]: the rows of the frames one after the other, each with the
    index label it has. *)
Definition pd_concat (frames : list token_frame) : token_frame :=
  concat frames.

(** Standard output of [tokenize_data]: 'Row <idx> of <rows> done'. *)
Inductive progress : Type := RowDone (idx : Z) (rows : nat).

Section Corpus.

(** [stopwords.words('english')], once the corpus is there. *)
Variable english : list str.

Definition remove_stopwords (text : list str) : list str :=
  let stop_list := english ++ map (fun c => [c]) punctuation in
  let clean_words := filter (fun term => term ∉ stop_list) text in
  clean_words.

Definition check_emoticons (tokens : list str) (lowercase : bool) : list str :=
  if lowercase
  then map (fun token => if emoticon_re_search token then token
                         else lower token) tokens
  else tokens.

(** The default of the parameter [lowercase]. *)
Definition lowercase_default : bool := false.

(** The body of the loop over the tweets of one row. *)
Definition tokenize_tweet (filter_stopwords : bool) (tweet : str) : list str :=
  let tokenized_tweets := findall token_re tweet in
  let tokenized_tweets := check_emoticons tokenized_tweets lowercase_default in
  if filter_stopwords then remove_stopwords tokenized_tweets
  else tokenized_tweets.

(** The body of the loop over the rows: the state is [token_list] and what
    has been printed. *)
Definition tokenize_row (rows : nat) (filter_stopwords : bool)
    (st : list (str * list str) * list progress) (r : row)
    : list (str * list str) * list progress :=
  let '(token_list, out) := st in
  let tweets_split := split_bars [] (posts r) in
  let ptype := type r in
  let token_list :=
    fold_left (fun tl tweet => tl ++ [(ptype, tokenize_tweet filter_stopwords tweet)])
              tweets_split token_list in
  let out :=
    if (index r mod 100 =? 0)%Z then out ++ [RowDone (index r) rows] else out in
  (token_list, out).

Definition tokenize_data (df : list row) (filter_stopwords : bool)
    : token_frame * list progress :=
  let '(token_list, out) :=
    fold_left (tokenize_row (length df) filter_stopwords) df ([], []) in
  (DataFrame token_list, out).

End Corpus.

(** [parallelize(func, df)]; [cpu_count] is what [cpu_count()] returns.
    [pool.map] gives the results in the order of the subsets. *)
Definition parallelize (cpu_count : nat) (func : list row -> token_frame)
    (df : list row) : result token_frame :=
  let partitions := cpu_count in
  match array_split df partitions with
  | Raise e => Raise e
  | Ok df_subsets => Ok (pd_concat (map func df_subsets))
  end.

(** *** Success rates *)

(** A row of [labels_pred]. *)
Record pred_row : Type :=
  PredRow { label : str; predicted : str; success : bool }.

(** [labels_pred.groupby('label')]: the labels that occur, sorted, each
    with its rows in their order. *)
Definition groupby_label (labels_pred : list pred_row)
    : list (str * list pred_row) :=
  map (fun name => (name, filter (fun r => label r = name) labels_pred))
      (sorted (remove_dups (map label labels_pred))).

(** [sum(group['success'])/len(group)], as the rational it rounds. *)
Definition frac_of (group : list pred_row) : Q :=
  Qmake (Z.of_nat (length (filter (fun r => success r = true) group)))
        (Pos.of_nat (length group)).

(** Standard output of [success_rates]. *)
Inductive rate_line : Type := RateLine (name : str) (frac : Q).

(** The loop over the groups: the state is [fracs] and the loop variables
    [name] and [frac], unbound before the first iteration. *)
Definition rates_loop (groups : list (str * list pred_row))
    : gmap str Q * option (str * Q) :=
  fold_left (fun st g =>
               let frac := frac_of (snd g) in
               (<[fst g := frac]> (fst st), Some (fst g, frac)))
            groups (∅, None).

(** What is printed, and the value returned ([None] is Python's [None]).
    Assigning a column of another length raises [ValueError]. *)
Definition success_rates (labels predictions : list str)
    (return_results : bool)
    : list rate_line * result (option (gmap str Q)) :=
  if negb (length predictions =? length labels) then ([], Raise ValueError)
  else
    let labels_pred :=
      zip_with (fun l p => PredRow l p (bool_decide (p = l)))
               labels predictions in
    let '(fracs, last) := rates_loop (groupby_label labels_pred) in
    if return_results then ([], Ok (Some fracs))
    else
      match last with
      | Some (name, frac) => ([RateLine name frac], Ok None)
      | None => ([], Raise NameError)
      end.

(** *** Grid search *)

Section GridSearch.

(** Parameter values, scores with their [>], the estimator, the data and
    the [cv_results_] of scikit-learn. *)
Variables pvalue score cv_results estimator data : Type.
Variable gtb : score -> score -> bool.

(** An item of [grid_scores_]: parameters, mean validation score, the
    scores of the folds. *)
Abbreviation grid_score := (gmap str pvalue * score * list score)%type.

(** A fitted [GridSearchCV]. *)
Record fitted : Type :=
  Fitted { grid_scores_ : list grid_score; cv_results_ : cv_results }.

(** [GridSearchCV(clf, param_grid, n_jobs, verbose = 7).fit(X, y)]. *)
Variable GridSearchCV_fit :
  estimator -> gmap str (list pvalue) -> Z -> data -> data -> fitted.

(** Standard output of [grid_search]. *)
Inductive gs_line : Type :=
| ParamLine (param_name : str) (value : pvalue)
| ScoreLine (s : score)
| ResultsLine (r : cv_results).

(** The loop over the sorted parameter names; a name that the best
    parameters do not have raises [KeyError] after the lines before it. *)
Fixpoint print_params (names : list str) (best_parameters : gmap str pvalue)
    : list gs_line * result unit :=
  match names with
  | [] => ([], Ok tt)
  | param_name :: names' =>
      match best_parameters !! param_name with
      | None => ([], Raise KeyError)
      | Some v =>
          let '(out, r) := print_params names' best_parameters in
          (ParamLine param_name v :: out, r)
      end
  end.

(** The keys of a dict, sorted. *)
Definition sorted_keys (parameters : gmap str (list pvalue)) : list str :=
  sorted (map fst (map_to_list parameters)).

(** The body shared by the two scripts up to [print(score)]. *)
Definition report_best (gs_clf : fitted)
    (parameters : gmap str (list pvalue))
    : list gs_line * result unit :=
  match py_max gtb (fun x => snd (fst x)) (grid_scores_ gs_clf) with
  | Raise e => ([], Raise e)
  | Ok (best_parameters, score, _) =>
      match print_params (sorted_keys parameters) best_parameters with
      | (out, Raise e) => (out, Raise e)
      | (out, Ok _) => (out ++ [ScoreLine score], Ok tt)
      end
  end.

(** What is printed, and the value returned: the function has no [return],
    so a call that does not raise gives Python's [None]. *)
Definition grid_search (clf : estimator)
    (parameters : gmap str (list pvalue)) (jobs : Z) (X y : data)
    : list gs_line * result (option (gmap str pvalue * score * cv_results)) :=
  let gs_clf := GridSearchCV_fit clf parameters jobs X y in
  match report_best gs_clf parameters with
  | (out, Raise e) => (out, Raise e)
  | (out, Ok _) => (out ++ [ResultsLine (cv_results_ gs_clf)], Ok None)
  end.

End GridSearch.

(** *** Words of the cleaned posts *)

(** The body of the inner loop of [gather_words]: the four [re.sub] and
    [strip]. *)
Definition clean_word (word : str) : str :=
  let word := remove_char "]" word in
  let word := remove_char "'" word in
  let word := remove_char (ascii_of_N 34) word in
  let word := remove_char "[" word in
  let word := strip word in
  word.

Definition gather_words (posts : list str) : list str :=
  fold_left (fun words tweet =>
               let tweet_words := split_char "," [] tweet in
               fold_left (fun words word => words ++ [clean_word word])
                         tweet_words words)
            posts [].

End HelperFunctions.

(** ** scripts/NLPAnalysis.py *)

Module NLPAnalysis.

(** The functions the dispatcher calls. *)
Inductive action : Type :=
| basic_output
| tokenize_data
| unique_labels_word_freq
| word_cloud
| initial_model
| naive_bayes_model
| linear_SVM_model
| neural_network_model.

(** What the block under [if __name__ == '__main__'] does with
    [sys.argv]: it calls one function or prints one line. *)
Inductive dispatch : Type :=
| Call (a : action)
| Print (line : str).

Definition main (argv : list str) : dispatch :=
  if length argv =? 2
  then
    let keyword := nth 1 argv [] in
    if bool_decide (keyword = py "basic") then Call basic_output
    else if bool_decide (keyword = py "tokenize") then Call tokenize_data
    else if bool_decide (keyword = py "unique") then Call unique_labels_word_freq
    else if bool_decide (keyword = py "cloud") then Call word_cloud
    else if bool_decide (keyword = py "initial") then Call initial_model
    else if bool_decide (keyword = py "NB") then Call naive_bayes_model
    else if bool_decide (keyword = py "SVM") then Call linear_SVM_model
    else if bool_decide (keyword = py "NN") then Call neural_network_model
    else Print (py "Incorrect keyword; please try again.")
  else
    Print (py "Incorrect number of keywords; please enter only one keyword.").

(** A run of the script.  The statements above the block run first: the
    imports, and lines 22 to 27, which read the data file under a fixed
    path.  When one of them raises, the interpreter prints the traceback
    and ends before the block is reached. *)
Inductive run : Type :=
| Crashed
| Reached (d : dispatch).

(** [module_level_ok]: the statements above the block end without an
    exception. *)
Definition script (module_level_ok : bool) (argv : list str) : run :=
  if module_level_ok then Reached (main argv) else Crashed.

(** Exit status of the interpreter: 1 after an uncaught exception, of the
    statements above the block or of the called function ([raises]), and 0
    otherwise; the block never calls [sys.exit]. *)
Definition exit_status (raises : action -> bool) (r : run) : Z :=
  match r with
  | Crashed => 1%Z
  | Reached (Call a) => if raises a then 1%Z else 0%Z
  | Reached (Print _) => 0%Z
  end.

Section GridSearch.

Variables pvalue score cv_results estimator data : Type.
Variable gtb : score -> score -> bool.

(** [model_selection.GridSearchCV(...).fit(X, y)]. *)
Variable GridSearchCV_fit :
  estimator -> gmap str (list pvalue) -> Z -> data -> data
  -> HelperFunctions.fitted pvalue score cv_results.

(** As in [helper_functions.py], without the last [print]. *)
Definition grid_search (clf : estimator)
    (parameters : gmap str (list pvalue)) (jobs : Z) (X y : data)
    : list (HelperFunctions.gs_line pvalue score cv_results)
      * result (option (gmap str pvalue * score * cv_results)) :=
  let gs_clf := GridSearchCV_fit clf parameters jobs X y in
  match HelperFunctions.report_best pvalue score cv_results gtb gs_clf
          parameters with
  | (out, Raise e) => (out, Raise e)
  | (out, Ok _) => (out, Ok None)
  end.

End GridSearch.

(** The functions of the script that work on text. *)
Module Functions.

Import Chars Regex Builtins.

(** [(?:\@|https?\://)\S+], compiled without flags. *)
Definition mention_or_url : regex :=
  Seq (Alt (Chr (is_char "@"))
           (Seq (Lit is_char (py "http"))
                (Seq (Opt (Chr (is_char "s"))) (Lit is_char (py "://")))))
      (Plus (Chr (fun c => negb (is_space c)))).

(** The pattern [\w+] of the [RegexpTokenizer]; its [tokenize] is
    [findall]. *)
Definition word_re : regex := Plus (Chr is_word).

Section Corpus.

(** [nltk.corpus.stopwords.words('english')], and what
    [word in local_stopwords] gives for the array of [np.empty]. *)
Variable english : list str.
Variable in_local_stopwords : str -> bool.

(** The three assignments to [words] in the loop of [tokenize_data]. *)
Definition words_of (posts : str) : list str :=
  let words := sub mention_or_url posts in
  let words := map lower (findall word_re words) in
  let words :=
    filter (fun word => (word ∉ english) /\ (in_local_stopwords word = false))
           words in
  words.

(** The loop over the lines of the csv reader, from the counter [i] on: the
    rows written, the counters printed, and how the loop ends.  Unpacking a
    line that has not two fields raises [ValueError]; what was written
    before stays written. *)
Fixpoint lines_loop (i : nat) (csv_file : list (list str))
    : list (str * list str) * list nat * result unit :=
  match csv_file with
  | [] => ([], [], Ok tt)
  | line :: rest =>
      match line with
      | [ptype; posts] =>
          let words := words_of posts in
          let printed := if i mod 100 =? 0 then [i] else [] in
          let '(rows, out, r) := lines_loop (S i) rest in
          ((ptype, words) :: rows, printed ++ out, r)
      | _ => ([], [], Raise ValueError)
      end
  end.

Definition tokenize_data (csv_file : list (list str))
    : list (str * list str) * list nat * result unit :=
  lines_loop 0 csv_file.

End Corpus.

(** [gather_words] of this script: two [re.sub], no [strip]. *)
Definition gather_words (posts : list str) : list str :=
  fold_left (fun words tweet =>
               let tweet_words := split_char "," [] tweet in
               fold_left (fun words word =>
                            words ++ [remove_char "'" (remove_char "]" word)])
                         tweet_words words)
            posts [].

End Functions.

End NLPAnalysis.

(** * Properties *)

Import Chars Regex Builtins HelperFunctions.

(** ** What the specification calls coverage

    [covers text tokens]: [text] is the tokens in their order with nothing
    but whitespace characters between them. *)
Inductive covers : str -> list str -> Prop :=
| covers_nil : covers [] []
| covers_space c s toks :
    is_space c = true -> covers s toks -> covers (c :: s) toks
| covers_token tok s toks :
    covers s toks -> covers (tok ++ s) (tok :: toks).

(** [s] has the delimiter of the posts in it. *)
Definition has_bars (s : str) : Prop :=
  exists pre post, s = pre ++ py "|||" ++ post.

(** [pieces] are the posts of the text [s]: joined with the delimiter
    they are [s], none has the delimiter in it, and the delimiter behind a
    piece is the first one from the start of the piece. *)
Definition splits_into (s : str) (pieces : list str) : Prop :=
  pieces <> []
  /\ join_bars pieces = s
  /\ (forall piece, piece ∈ pieces -> ~ has_bars piece)
  /\ (forall i piece, pieces !! i = Some piece -> S i < length pieces ->
        ~ has_bars (piece ++ py "||")).

(** The pairs of one row: one per post, each with the label of the row. *)
Definition row_pairs (english : list str) (filter_stopwords : bool) (r : row)
    : list (str * list str) :=
  map (fun tweet => (type r, tokenize_tweet english filter_stopwords tweet))
      (split_bars [] (posts r)).

(** The keywords the dispatcher knows. *)
Definition keywords : list str :=
  map py ["basic"; "tokenize"; "unique"; "cloud"; "initial"; "NB"; "SVM"; "NN"].

(** The line [grid_search] prints for a parameter name: the name with the
    value the best parameters give it. *)
Definition param_line_of {pvalue score cv_results : Type}
    (best_parameters : gmap str pvalue) (param_name : str)
    (line : gs_line pvalue score cv_results) : Prop :=
  exists v, best_parameters !! param_name = Some v
            /\ line = ParamLine pvalue score cv_results param_name v.

(** What [grid_search] does with a fitted search: [best] is the first item
    of [grid_scores_] among those with the greatest mean score, and both
    scripts print its parameters by sorted name and its score, and return
    [None]. *)
Definition reports_first_best {pvalue score cv_results estimator data : Type}
    (gtb : score -> score -> bool)
    (GridSearchCV_fit : estimator -> gmap str (list pvalue) -> Z -> data -> data
                        -> fitted pvalue score cv_results)
    (clf : estimator) (parameters : gmap str (list pvalue)) (jobs : Z)
    (X y : data) : Prop :=
  let gs_clf := GridSearchCV_fit clf parameters jobs X y in
  exists i best_parameters best_score folds lines,
    grid_scores_ _ _ _ gs_clf !! i = Some (best_parameters, best_score, folds)
    /\ (forall e, e ∈ grid_scores_ _ _ _ gs_clf -> gtb e.1.2 best_score = false)
    /\ (forall j e, j < i -> grid_scores_ _ _ _ gs_clf !! j = Some e ->
          gtb best_score e.1.2 = true)
    /\ Forall2 (param_line_of best_parameters)
               (sorted_keys pvalue parameters) lines
    /\ HelperFunctions.grid_search pvalue score cv_results estimator data
         gtb GridSearchCV_fit clf parameters jobs X y
       = (lines ++ [ScoreLine _ _ _ best_score;
                    ResultsLine _ _ _ (cv_results_ _ _ _ gs_clf)],
          Ok None)
    /\ NLPAnalysis.grid_search pvalue score cv_results estimator data
         gtb GridSearchCV_fit clf parameters jobs X y
       = (lines ++ [ScoreLine _ _ _ best_score], Ok None).

(** A search over three values of [alpha], with scores in percent: the
    second and the third value tie. *)
Definition alpha_grid : gmap str (list Z) := {[ py "alpha" := [100; 10; 1]%Z ]}.

Definition alpha_fit (clf : unit) (parameters : gmap str (list Z)) (jobs : Z)
    (X y : unit) : fitted Z Z unit :=
  Fitted Z Z unit
    [({[ py "alpha" := 100%Z ]}, 50%Z, [50%Z]);
     ({[ py "alpha" := 10%Z ]}, 70%Z, [70%Z]);
     ({[ py "alpha" := 1%Z ]}, 70%Z, [70%Z])]
    tt.

(** The strings a pattern describes, apart from any matching strategy. *)
Inductive lang : regex -> str -> Prop :=
| lang_eps : lang Eps []
| lang_chr p c : p c = true -> lang (Chr p) [c]
| lang_seq a b s t : lang a s -> lang b t -> lang (Seq a b) (s ++ t)
| lang_alt_l a b s : lang a s -> lang (Alt a b) s
| lang_alt_r a b s : lang b s -> lang (Alt a b) s
| lang_star_nil a : lang (Star a) []
| lang_star_cons a s t : lang a s -> lang (Star a) t -> lang (Star a) (s ++ t).

(** The characters [emoticon_re] takes as eyes, nose and mouth, with the
    case variants [re.IGNORECASE] adds. *)
Definition eyes_chars : str := py ":=;".
Definition nose_chars : str := py "oO-".
Definition mouth_chars : str := py "dDoOpP)](/\".

(** How often [name] is among the actual labels, and how often it is
    there with the prediction [name]. *)
Definition occurrences (labels : list str) (name : str) : nat :=
  length (filter (fun l => l = name) labels).

Definition hits (labels predictions : list str) (name : str) : nat :=
  length (filter (fun lp => fst lp = name /\ snd lp = name)
                 (zip labels predictions)).

(** The form in which a list of plain strings is written into the cleaned
    data: ['w1', 'w2', ...]. *)
Definition quoted (w : str) : str := py "'" ++ w ++ py "'".

Fixpoint join_comma (pieces : list str) : str :=
  match pieces with
  | [] => []
  | [x] => x
  | x :: rest => x ++ py ", " ++ join_comma rest
  end.

Definition list_repr (words : list str) : str :=
  py "[" ++ join_comma (map quoted words) ++ py "]".

(** The characters [gather_words] takes out of a word or splits at. *)
Definition special_chars : str := py "]'[," ++ [ascii_of_N 34].

(** The four [re.sub] of [gather_words] in a row. *)
Definition remove_special (word : str) : str :=
  remove_char "[" (remove_char (ascii_of_N 34)
    (remove_char "'" (remove_char "]" word))).

(** A string without whitespace and without those characters. *)
Definition plain (w : str) : Prop :=
  forall c, c ∈ w -> is_space c = false /\ c ∉ special_chars.

(** [a <= b] on strings. *)
Definition str_le (a b : str) : Prop := str_leb a b = true.

(** The parameter name of a line [grid_search] prints, if it has one. *)
Definition line_name {pvalue score cv_results : Type}
    (line : gs_line pvalue score cv_results) : option str :=
  match line with
  | ParamLine _ _ _ param_name _ => Some param_name
  | _ => None
  end.

(** ** The matcher *)

Section Matcher.

Implicit Types (r : regex) (s : str) (k : str -> option str).

Lemma star_loop_suffix body k n s x :
  (forall s0 k0 x0, body s0 k0 = Some x0 ->
     exists s', k0 s' = Some x0 /\ s' `suffix_of` s0) ->
  star_loop body k n s = Some x ->
  exists s', k s' = Some x /\ s' `suffix_of` s.
Proof.
  intros Hbody. revert s. induction n as [|n IH]; intros s; simpl.
  - intros Hk. exists s. split; [exact Hk | reflexivity].
  - destruct (body s _) as [y|] eqn:E.
    + intros [= ->]. apply Hbody in E as (s1 & Hs1 & Hsuf).
      destruct (length s1 <? length s); [|discriminate].
      apply IH in Hs1 as (s2 & Hk & Hsuf2).
      exists s2. split; [exact Hk | by etrans].
    + intros Hk. exists s. split; [exact Hk | reflexivity].
Qed.

(** A match hands a suffix of the subject to the rest of the pattern, and a
    strictly shorter one when the pattern consumes. *)
Lemma rmatch_suffix r : forall s k x,
  rmatch r s k = Some x ->
  exists s', k s' = Some x /\ s' `suffix_of` s
             /\ (consumes r = true -> length s' < length s).
Proof.
  induction r as [|p|a IHa b IHb|a IHa b IHb|a IHa]; intros s k x; simpl.
  - intros Hk. exists s. repeat split; [exact Hk | done | discriminate].
  - destruct s as [|c s']; [discriminate|].
    destruct (p c); [|discriminate].
    intros Hk. exists s'. repeat split; [exact Hk | by apply suffix_cons_r | simpl; lia].
  - intros H. apply IHa in H as (s1 & H1 & Hsuf1 & Hlen1).
    apply IHb in H1 as (s2 & H2 & Hsuf2 & Hlen2).
    exists s2. split; [exact H2|]. split; [by etrans|].
    intros Hc. apply suffix_length in Hsuf1, Hsuf2.
    apply orb_true_iff in Hc as [Hc|Hc]; [specialize (Hlen1 Hc)|specialize (Hlen2 Hc)]; lia.
  - destruct (rmatch a s k) as [y|] eqn:E.
    + intros [= ->]. apply IHa in E as (s1 & H1 & Hsuf1 & Hlen1).
      exists s1. repeat split; [exact H1 | exact Hsuf1 |].
      intros Hc. apply andb_true_iff in Hc as [Hc _]. auto.
    + intros H. apply IHb in H as (s1 & H1 & Hsuf1 & Hlen1).
      exists s1. repeat split; [exact H1 | exact Hsuf1 |].
      intros Hc. apply andb_true_iff in Hc as [_ Hc]. auto.
  - intros H. apply star_loop_suffix in H as (s1 & H1 & Hsuf1).
    + exists s1. repeat split; [exact H1 | exact Hsuf1 | discriminate].
    + intros s0 k0 x0 H0. apply IHa in H0 as (s' & ? & ? & _). eauto.
Qed.

(** The match found at the start of [s] is a prefix of [s]. *)
Lemma match_at_prefix r s n :
  match_at r s = Some n ->
  n <= length s /\ (consumes r = true -> 0 < n).
Proof.
  unfold match_at. destruct (rmatch r s Some) as [rest|] eqn:E; [|discriminate].
  intros [= <-]. apply rmatch_suffix in E as (s' & [= ->] & Hsuf & Hlen).
  apply suffix_length in Hsuf. split; [lia|].
  intros Hc. specialize (Hlen Hc). lia.
Qed.

(** The last alternative decides whether an alternation can fail. *)
Lemma rmatch_Alts_last l last s k :
  rmatch (Alts l last) s k = None -> rmatch last s k = None.
Proof.
  induction l as [|a l IH]; simpl; [done|].
  destruct (rmatch a s k); [discriminate | exact IH].
Qed.

Lemma consumes_Alts l last :
  forallb consumes l = true -> consumes last = true ->
  consumes (Alts l last) = true.
Proof.
  induction l as [|a l IH]; simpl; [done|].
  intros [Ha Hl]%andb_true_iff Hlast. rewrite Ha. simpl. auto.
Qed.

(** The result depends on the continuation only through what it does on
    the suffixes of the subject. *)
Lemma star_loop_ext body k1 k2 n :
  (forall s0 j1 j2, (forall s', s' `suffix_of` s0 -> j1 s' = j2 s') ->
     body s0 j1 = body s0 j2) ->
  forall s, (forall s', s' `suffix_of` s -> k1 s' = k2 s') ->
  star_loop body k1 n s = star_loop body k2 n s.
Proof.
  intros Hbody. induction n as [|n IH]; intros s Hk; simpl.
  - by apply Hk.
  - rewrite (Hbody s _ (fun s' => if length s' <? length s
                                  then star_loop body k2 n s' else None)).
    + by rewrite (Hk s).
    + intros s' Hs'. destruct (length s' <? length s); [|done].
      apply IH. intros s'' Hs''. apply Hk. by etrans.
Qed.

Lemma rmatch_ext r : forall s k1 k2,
  (forall s', s' `suffix_of` s -> k1 s' = k2 s') ->
  rmatch r s k1 = rmatch r s k2.
Proof.
  induction r as [|p|a IHa b IHb|a IHa b IHb|a IHa]; intros s k1 k2 Hk; simpl.
  - by apply Hk.
  - destruct s as [|c s']; [done|]. destruct (p c); [|done].
    apply Hk. by apply suffix_cons_r.
  - apply IHa. intros s' Hs'. apply IHb. intros s'' Hs''. apply Hk. by etrans.
  - by rewrite (IHa s k1 k2 Hk), (IHb s k1 k2 Hk).
  - apply star_loop_ext; [|done]. intros s0 j1 j2 Hj. by apply IHa.
Qed.

(** The bound on the iterations is never reached: any bound from the
    length of the subject on gives the same result. *)
Lemma star_loop_bound a k : forall n m s,
  length s <= n -> length s <= m ->
  star_loop (rmatch a) k n s = star_loop (rmatch a) k m s.
Proof.
  assert (Hnil : forall n, star_loop (rmatch a) k n [] = k []).
  { intros [|n]; simpl; [done|].
    destruct (rmatch a [] _) as [x|] eqn:E; [|done].
    apply rmatch_suffix in E as (s' & Hs' & _). simpl in Hs'.
    by destruct (length s' <? 0) eqn:E'; [apply Nat.ltb_lt in E'; lia|]. }
  induction n as [|n IH]; intros m s Hn Hm.
  - assert (s = []) as -> by (apply nil_length_inv; lia). by rewrite !Hnil.
  - destruct m as [|m].
    { assert (s = []) as -> by (apply nil_length_inv; lia). by rewrite !Hnil. }
    simpl.
    rewrite (rmatch_ext a s _ (fun s' => if length s' <? length s
                                         then star_loop (rmatch a) k m s'
                                         else None)); [done|].
    intros s' _. destruct (length s' <? length s) eqn:E; [|done].
    apply Nat.ltb_lt in E. apply IH; lia.
Qed.

(** [a*] is one more [a] that consumes, then [a*] again, or else nothing. *)
Lemma rmatch_Star a s k :
  rmatch (Star a) s k
  = match rmatch a s (fun s' => if length s' <? length s
                                then rmatch (Star a) s' k else None) with
    | Some x => Some x
    | None => k s
    end.
Proof.
  simpl. destruct s as [|c s].
  - simpl. destruct (rmatch a [] _) as [x|] eqn:E; [|done].
    apply rmatch_suffix in E as (s' & Hs' & _). simpl in Hs'.
    by destruct (length s' <? 0) eqn:E'; [apply Nat.ltb_lt in E'; lia|].
  - simpl length. simpl star_loop.
    rewrite (rmatch_ext a (c :: s) _
               (fun s' => if length s' <? S (length s)
                          then star_loop (rmatch a) k (length s') s'
                          else None)); [done|].
    intros s' _. destruct (length s' <? S (length s)) eqn:E; [|done].
    apply Nat.ltb_lt in E. apply star_loop_bound; lia.
Qed.

End Matcher.

(** ** [findall] *)

Section Findall.

Variable r : regex.

(** Every token is a slice of the subject. *)
Lemma findall_from_slice s : forall skip tok,
  tok ∈ findall_from r skip s -> exists pre post, s = pre ++ tok ++ post.
Proof.
  induction s as [|c s IH]; intros skip tok; simpl.
  - destruct skip, (rmatch r [] Some); try (intros H; by apply elem_of_nil in H).
    intros ->%list_elem_of_singleton. by exists [], [].
  - assert (Hrest : forall j, tok ∈ findall_from r j s ->
                     exists pre post, c :: s = pre ++ tok ++ post).
    { intros j (pre & post & ->)%IH. by exists (c :: pre), post. }
    destruct skip as [|j]; [|apply Hrest].
    destruct (match_at r (c :: s)) as [[|j]|] eqn:E; [| |apply Hrest].
    + intros [->|H]%elem_of_cons; [by exists [], (c :: s) | by eapply Hrest].
    + intros [->|H]%elem_of_cons; [|by eapply Hrest].
      exists [], (drop (S j) (c :: s)). simpl. by rewrite take_drop.
Qed.

Hypothesis r_consumes : consumes r = true.
Hypothesis r_non_space :
  forall c s, is_space c = false -> rmatch r (c :: s) Some <> None.

Lemma findall_from_covers s : forall skip,
  skip <= length s -> covers (drop skip s) (findall_from r skip s).
Proof.
  induction s as [|c s IH]; intros skip Hskip; simpl in *.
  - assert (skip = 0) as -> by lia.
    destruct (rmatch r [] Some) as [rest|] eqn:E; [|constructor].
    apply rmatch_suffix in E as (s' & _ & _ & Hlen).
    specialize (Hlen r_consumes). simpl in Hlen. lia.
  - destruct skip as [|j]; [|apply IH; lia].
    rewrite drop_0.
    destruct (match_at r (c :: s)) as [[|j]|] eqn:E.
    + apply match_at_prefix in E as [_ Hpos]. specialize (Hpos r_consumes). lia.
    + apply match_at_prefix in E as [Hle _]. simpl in Hle.
      rewrite <- (take_drop (S j) (c :: s)) at 1.
      apply covers_token. simpl. apply IH. lia.
    + apply covers_space; [|apply (IH 0); lia].
      unfold match_at in E.
      destruct (is_space c) eqn:Hsp; [done|].
      destruct (rmatch r (c :: s) Some) eqn:E'; [discriminate|].
      by apply r_non_space in E'.
Qed.

(** No token is empty. *)
Lemma findall_from_nonempty s : forall skip tok,
  tok ∈ findall_from r skip s -> tok <> [].
Proof.
  induction s as [|c s IH]; intros skip tok; simpl.
  - destruct skip; [|by intros H%elem_of_nil].
    destruct (rmatch r [] Some) as [rest|] eqn:E; [|by intros H%elem_of_nil].
    apply rmatch_suffix in E as (s' & _ & _ & Hlen).
    specialize (Hlen r_consumes). simpl in Hlen. lia.
  - destruct skip as [|j]; [|apply IH].
    destruct (match_at r (c :: s)) as [[|j]|] eqn:E; [| |apply IH].
    + apply match_at_prefix in E as [_ Hpos]. specialize (Hpos r_consumes). lia.
    + intros [->|H]%elem_of_cons; [done | by eapply IH].
Qed.

End Findall.

Lemma covers_elem text toks :
  covers text toks ->
  forall c, c ∈ text -> is_space c = false -> exists tok, tok ∈ toks /\ c ∈ tok.
Proof.
  induction 1 as [|c0 s toks Hsp _ IH|tok s toks _ IH]; intros c Hin Hc.
  - by apply elem_of_nil in Hin.
  - apply elem_of_cons in Hin as [->|Hin]; [congruence|]. by apply IH.
  - apply elem_of_app in Hin as [Hin|Hin].
    + exists tok. split; [left | done].
    + destruct (IH c Hin Hc) as (tok' & ? & ?). exists tok'. split; [by right | done].
Qed.

(** ** The tokenizer *)

Lemma token_re_consumes : consumes token_re = true.
Proof. reflexivity. Qed.

Lemma token_re_non_space c s :
  is_space c = false -> rmatch token_re (c :: s) Some <> None.
Proof.
  intros Hc E. unfold token_re in E. apply rmatch_Alts_last in E.
  simpl in E. rewrite Hc in E. discriminate.
Qed.

Lemma findall_token_re_covers text : covers text (findall token_re text).
Proof.
  apply (findall_from_covers token_re token_re_consumes token_re_non_space text 0).
  lia.
Qed.

Section Tokenizer.

Variable english : list str.

Lemma remove_stopwords_subset text tok :
  tok ∈ remove_stopwords english text -> tok ∈ text.
Proof. unfold remove_stopwords. by intros [_ ?]%list_elem_of_filter. Qed.

(** C3: the text is the tokens the tokenizer returns for it, in their
    order, with nothing but whitespace between them; so every
    non-whitespace character of the text is in one of the tokens. *)
Theorem C3_tokenizer_loses_no_character (text : str) :
  covers text (tokenize_tweet english false text)
  /\ (forall c, c ∈ text -> is_space c = false ->
        exists tok, tok ∈ tokenize_tweet english false text /\ c ∈ tok).
Proof.
  split; [apply findall_token_re_covers|].
  intros c Hin Hc.
  exact (covers_elem _ _ (findall_token_re_covers text) c Hin Hc).
Qed.

(** C10: [check_emoticons] with [lowercase] left at its default returns its
    argument, so the call in [tokenize_data] leaves the tokens of
    [token_re.findall] as they are. *)
Theorem C10_check_emoticons_default_identity (tokens : list str) (tweet : str) :
  check_emoticons tokens lowercase_default = tokens
  /\ tokenize_tweet english false tweet = findall token_re tweet.
Proof. split; reflexivity. Qed.

(** C1, as the code has it: every token the tokenizer returns is a slice
    of the text, in the casing of the text, whether it is an emoticon or
    not; [check_emoticons] keeps emoticons and lowercases the other tokens
    only when it is called with [lowercase = True]. *)
Theorem C1_tokenizer_keeps_casing (text : str) (filter_stopwords : bool) :
  (forall tok, tok ∈ tokenize_tweet english filter_stopwords text ->
     exists pre post, text = pre ++ tok ++ post)
  /\ (forall tokens i tok, tokens !! i = Some tok ->
        check_emoticons tokens true !! i
        = Some (if emoticon_re_search tok then tok else lower tok))
  /\ (forall tokens, length (check_emoticons tokens true) = length tokens).
Proof.
  split; [|split].
  - intros tok Htok. apply (findall_from_slice token_re text 0).
    unfold tokenize_tweet in Htok. simpl in Htok.
    destruct filter_stopwords; [by apply remove_stopwords_subset in Htok | done].
  - intros tokens i tok Hi. simpl. by rewrite list_lookup_fmap, Hi.
  - intros tokens. simpl. apply length_map.
Qed.

End Tokenizer.

(** C3 at the text ["a b"] and its character ["b"]. *)
Lemma C3_witness :
  exists tok, tok ∈ tokenize_tweet [] false (py "a b") /\ "b"%char ∈ tok.
Proof.
  apply (proj2 (C3_tokenizer_loses_no_character [] (py "a b")) "b"%char).
  - vm_compute. do 2 right. left.
  - reflexivity.
Defined.

(** C1 at the text ["Hi :D"] and its token [":D"]. *)
Lemma C1_witness : exists pre post, py "Hi :D" = pre ++ py ":D" ++ post.
Proof.
  apply (proj1 (C1_tokenizer_keeps_casing [] (py "Hi :D") false) (py ":D")).
  vm_compute. right. left.
Defined.

(** C1 fails as stated: the tokenizer returns the token ["Hi"] of the text
    ["Hi"], which is no emoticon and is not lowercased. *)
Lemma C1_counterexample :
  ~ (forall text tok,
       tok ∈ tokenize_tweet [] false text ->
       emoticon_re_search tok = false -> tok = lower tok).
Proof.
  intros H. specialize (H (py "Hi") (py "Hi")).
  assert (E : py "Hi" = lower (py "Hi")); [|vm_compute in E; discriminate].
  apply H; [|reflexivity].
  vm_compute. left.
Qed.

(** ** Splitting into posts *)

Lemma split_bars_not_nil s : forall cur, split_bars cur s <> [].
Proof.
  induction s as [|a s IH]; intros cur; [done|].
  destruct s as [|b [|c rest]]; try apply IH.
  cbn [split_bars]. destruct (_ && _); [done | apply IH].
Qed.

(** Joining the posts with the delimiter gives the text back. *)
Lemma join_split_bars s : join_bars (split_bars [] s) = s.
Proof.
  assert (H : forall n s cur, length s <= n ->
                join_bars (split_bars cur s) = cur ++ s).
  { clear s. induction n as [|n IH]; intros s cur Hn.
    - assert (s = []) as -> by (apply nil_length_inv; lia).
      simpl. by rewrite app_nil_r.
    - destruct s as [|a s]; [simpl; by rewrite app_nil_r|].
      assert (Hstep : join_bars (split_bars (cur ++ [a]) s) = cur ++ a :: s).
      { rewrite IH by (simpl in Hn; lia). by rewrite <- app_assoc. }
      destruct s as [|b [|c rest]]; [exact Hstep..|].
      cbn [split_bars].
      destruct (is_char "|" a && is_char "|" b && is_char "|" c) eqn:E;
        [|exact Hstep].
      apply andb_true_iff in E as [[Ea Eb]%andb_true_iff Ec].
      apply Ascii.eqb_eq in Ea as <-, Eb as <-, Ec as <-.
      pose proof (split_bars_not_nil rest []) as Hnn.
      pose proof (IH rest [] ltac:(simpl in Hn; lia)) as Hrest.
      destruct (split_bars [] rest) as [|x l]; [done|].
      change (join_bars (cur :: x :: l))
        with (cur ++ py "|||" ++ join_bars (x :: l)).
      by rewrite Hrest. }
  apply (H (length s) s []). lia.
Qed.

Lemma split_bars_no_delimiter : forall n s cur,
  length s <= n ->
  ~ (exists pre post, cur ++ s = pre ++ py "|||" ++ post
                      /\ length pre < length cur) ->
  forall piece, piece ∈ split_bars cur s ->
    ~ (exists pre post, piece = pre ++ py "|||" ++ post).
Proof.
  induction n as [|n IH]; intros s cur Hn Hocc piece Hin.
  - assert (s = []) as -> by (apply nil_length_inv; lia).
    apply list_elem_of_singleton in Hin as ->.
    intros (pre & post & E). apply Hocc. exists pre, post.
    rewrite app_nil_r. split; [done|].
    rewrite E, !length_app. simpl. lia.
  - destruct s as [|a s].
    { apply list_elem_of_singleton in Hin as ->.
      intros (pre & post & E). apply Hocc. exists pre, post.
      rewrite app_nil_r. split; [done|].
      rewrite E, !length_app. simpl. lia. }
    assert (Hstep : ~ (exists post, a :: s = py "|||" ++ post) ->
              piece ∈ split_bars (cur ++ [a]) s ->
              ~ (exists pre post, piece = pre ++ py "|||" ++ post)).
    { intros Hno. apply IH; [simpl in Hn; lia|].
      intros (pre & post & E & Hlen). rewrite <- app_assoc in E. simpl in E.
      rewrite length_app in Hlen. simpl in Hlen.
      destruct (decide (length pre < length cur)) as [Hlt|Hge].
      - apply Hocc. by exists pre, post.
      - apply app_inj_1 in E as [_ E]; [|lia]. apply Hno. by exists post. }
    destruct s as [|b [|c rest]].
    + apply Hstep; [|done]. intros (post & E). discriminate E.
    + apply Hstep; [|done]. intros (post & E). discriminate E.
    + cbn [split_bars] in Hin.
      destruct (is_char "|" a && is_char "|" b && is_char "|" c) eqn:E.
      * apply elem_of_cons in Hin as [->|Hin].
        -- intros (pre & post & Ecur). apply Hocc.
           exists pre, (post ++ a :: b :: c :: rest). split.
           ++ rewrite Ecur. by rewrite <- !app_assoc.
           ++ rewrite Ecur, !length_app. simpl. lia.
        -- revert Hin. apply IH; [simpl in Hn; lia|].
           intros (pre & post & _ & Hlen). simpl in Hlen. lia.
      * apply Hstep; [|done]. intros (post & Epost).
        simpl in Epost. injection Epost as -> -> -> _.
        vm_compute in E. discriminate E.
Qed.

Lemma split_bars_leftmost : forall n s cur,
  length s <= n ->
  ~ (exists pre post, cur ++ s = pre ++ py "|||" ++ post
                      /\ length pre < length cur) ->
  forall i piece, split_bars cur s !! i = Some piece ->
    S i < length (split_bars cur s) ->
    ~ has_bars (piece ++ py "||").
Proof.
  induction n as [|n IH]; intros s cur Hn Hocc i piece Hi Hlt.
  - assert (s = []) as -> by (apply nil_length_inv; lia).
    simpl in Hlt. lia.
  - destruct s as [|a s]; [simpl in Hlt; lia|].
    assert (Hstep : ~ (exists post, a :: s = py "|||" ++ post) ->
              split_bars (cur ++ [a]) s !! i = Some piece ->
              S i < length (split_bars (cur ++ [a]) s) ->
              ~ has_bars (piece ++ py "||")).
    { intros Hno. apply IH; [simpl in Hn; lia|].
      intros (pre & post & E & Hlen). rewrite <- app_assoc in E. simpl in E.
      rewrite length_app in Hlen. simpl in Hlen.
      destruct (decide (length pre < length cur)) as [Hpre|Hge].
      - apply Hocc. by exists pre, post.
      - apply app_inj_1 in E as [_ E]; [|lia]. apply Hno. by exists post. }
    destruct s as [|b [|c rest]].
    + apply Hstep; [|done..]. intros (post & E). discriminate E.
    + apply Hstep; [|done..]. intros (post & E). discriminate E.
    + cbn [split_bars] in Hi, Hlt.
      destruct (is_char "|" a && is_char "|" b && is_char "|" c) eqn:E.
      * apply andb_true_iff in E as [[Ea Eb]%andb_true_iff Ec].
        apply Ascii.eqb_eq in Ea as <-, Eb as <-, Ec as <-.
        destruct i as [|i].
        -- injection Hi as <-. intros (pre & post & Ecur). apply Hocc.
           exists pre, (post ++ "|" %char :: rest). split.
           ++ change (cur ++ "|" %char :: "|" %char :: "|" %char :: rest)
                with (cur ++ py "||" ++ "|" %char :: rest).
              rewrite app_assoc, Ecur. by rewrite <- !app_assoc.
           ++ apply (f_equal length) in Ecur. rewrite !length_app in Ecur.
              simpl in Ecur. lia.
        -- simpl in Hi, Hlt. revert Hi. intros Hi.
           apply (IH rest [] ltac:(simpl in Hn; lia)) with (i := i) (piece := piece);
             [|done|lia].
           intros (pre & post & _ & Hlen). simpl in Hlen. lia.
      * apply Hstep; [|done..]. intros (post & Epost).
        simpl in Epost. injection Epost as -> -> -> _.
        vm_compute in E. discriminate E.
Qed.

(** [split_bars] gives the posts of a text. *)
Lemma split_bars_splits (s : str) : splits_into s (split_bars [] s).
Proof.
  assert (Hocc : ~ (exists pre post : str,
                      [] ++ s = pre ++ py "|||" ++ post
                      /\ length pre < length (@nil ascii))).
  { intros (pre & post & _ & Hlen). simpl in Hlen. lia. }
  split; [apply split_bars_not_nil|]. split; [apply join_split_bars|]. split.
  - intros piece Hin. unfold has_bars.
    by apply (split_bars_no_delimiter (length s) s []).
  - intros i piece Hi Hlt.
    by apply (split_bars_leftmost (length s) s [] (Nat.le_refl _) Hocc i).
Qed.

(** ** The stopword filter *)

(** C6: filtering a token sequence twice gives what filtering it once
    gives. *)
Theorem C6_remove_stopwords_idempotent (english : list str) (tokens : list str) :
  remove_stopwords english (remove_stopwords english tokens)
  = remove_stopwords english tokens.
Proof.
  unfold remove_stopwords.
  induction tokens as [|t tokens IH]; [reflexivity|].
  rewrite (filter_cons _ t tokens).
  destruct (decide (t ∉ _)) as [Ht|Ht]; [|exact IH].
  rewrite filter_cons. destruct (decide (t ∉ _)); [|done].
  f_equal. exact IH.
Qed.

(** ** The corpus preprocessor *)

Section Preprocessor.

Variable english : list str.
Variable filter_stopwords : bool.

Lemma tweets_loop (ptype : str) tweets : forall token_list,
  fold_left (fun tl tweet =>
               tl ++ [(ptype, tokenize_tweet english filter_stopwords tweet)])
            tweets token_list
  = token_list
    ++ map (fun tweet => (ptype, tokenize_tweet english filter_stopwords tweet))
           tweets.
Proof.
  induction tweets as [|t tweets IH]; intros tl; simpl.
  - by rewrite app_nil_r.
  - rewrite IH. by rewrite <- app_assoc.
Qed.

Lemma rows_loop rows df : forall token_list out,
  fst (fold_left (tokenize_row english rows filter_stopwords) df (token_list, out))
  = token_list ++ concat (map (row_pairs english filter_stopwords) df).
Proof.
  induction df as [|r df IH]; intros tl out; simpl.
  - by rewrite app_nil_r.
  - rewrite tweets_loop.
    destruct (index r mod 100 =? 0)%Z; rewrite IH; by rewrite <- app_assoc.
Qed.

Lemma values_imap (f : nat -> Z) (l : list (str * list str)) :
  map snd (imap (fun i x => (f i, x)) l) = l.
Proof.
  revert f. induction l as [|x l IH]; intros f; simpl; [done|].
  f_equal. apply (IH (fun i => f (S i))).
Qed.

Lemma values_DataFrame token_list : values (DataFrame token_list) = token_list.
Proof. apply values_imap. Qed.

Lemma tokenize_data_values df :
  values (fst (tokenize_data english df filter_stopwords))
  = concat (map (row_pairs english filter_stopwords) df).
Proof.
  unfold tokenize_data.
  pose proof (rows_loop (length df) df [] []) as H.
  destruct (fold_left _ df _) as [token_list out]. simpl in *.
  by rewrite values_DataFrame.
Qed.

(** C4: the posts of a row are the pieces of its text between the
    delimiters; the output has, row after row, one pair per post of the
    row, each with the label of the row; its length is the sum of the
    post counts. *)
Theorem C4_one_pair_per_post (df : list row) :
  (forall r, splits_into (posts r) (split_bars [] (posts r)))
  /\ values (fst (tokenize_data english df filter_stopwords))
     = concat (map (fun r =>
                      map (fun post =>
                             (type r, tokenize_tweet english filter_stopwords post))
                          (split_bars [] (posts r))) df)
  /\ length (fst (tokenize_data english df filter_stopwords))
     = sum_list (map (fun r => length (split_bars [] (posts r))) df).
Proof.
  split; [intros r; apply split_bars_splits|].
  split; [apply tokenize_data_values|].
  rewrite <- (length_map snd). fold (values (fst (tokenize_data english df filter_stopwords))).
  rewrite tokenize_data_values.
  induction df as [|r df IH]; simpl; [done|].
  rewrite length_app, IH. unfold row_pairs. by rewrite length_map.
Qed.

(** C5, as the code has it: a row whose posts are the empty string gives
    one pair, the label of the row with an empty token list. *)
Theorem C5_empty_posts_one_pair (r : row) :
  posts r = [] ->
  values (fst (tokenize_data english [r] filter_stopwords)) = [(type r, [])].
Proof.
  intros Hp. rewrite tokenize_data_values. simpl. unfold row_pairs.
  rewrite Hp. simpl. unfold tokenize_tweet. simpl.
  by destruct filter_stopwords.
Qed.

End Preprocessor.

(** C5 at the row with label ["INTJ"]. *)
Lemma C5_witness :
  values (fst (tokenize_data [] [Row 0 (py "INTJ") []] true))
  = [(py "INTJ", [])].
Proof. apply (C5_empty_posts_one_pair [] true (Row 0 (py "INTJ") [])). reflexivity. Defined.

(** C5 fails as stated: a row with empty posts does not give zero pairs. *)
Lemma C5_counterexample :
  ~ (forall r : row, posts r = [] ->
       values (fst (tokenize_data [] [r] false)) = []).
Proof.
  intros H. specialize (H (Row 0 (py "INTJ") []) eq_refl).
  vm_compute in H. discriminate.
Qed.

(** ** Partitioned preprocessing *)

Section Partitions.

Context {A : Type}.

Lemma chunks_concat (sizes : list nat) : forall l : list A,
  sum_list sizes = length l -> concat (chunks sizes l) = l.
Proof.
  induction sizes as [|n sizes IH]; intros l Hsum; simpl in *.
  - symmetry. by apply nil_length_inv.
  - rewrite IH; [apply take_drop|]. rewrite length_drop. lia.
Qed.

Lemma length_chunks (sizes : list nat) : forall l : list A,
  length (chunks sizes l) = length sizes.
Proof. induction sizes as [|n sizes IH]; intros l; simpl; [done | by rewrite IH]. Qed.

(** The parts of [array_split] are contiguous and disjoint: one after the
    other they are the rows of the frame. *)
Lemma array_split_concat (ary : list A) (sections : nat) :
  1 <= sections ->
  exists parts, array_split ary sections = Ok parts
                /\ length parts = sections /\ concat parts = ary.
Proof.
  intros Hn. unfold array_split.
  destruct (Nat.eqb_spec sections 0) as [->|Hne]; [lia|].
  eexists. split; [reflexivity|].
  pose proof (Nat.div_mod_eq (length ary) sections) as Hdm.
  pose proof (Nat.mod_upper_bound (length ary) sections Hne) as Hlt.
  split.
  - rewrite length_chunks, length_app, !length_replicate. lia.
  - apply chunks_concat.
    rewrite sum_list_with_app, !sum_list_replicate. nia.
Qed.

End Partitions.

Section Parallel.

Variable english : list str.
Variable filter_stopwords : bool.

Lemma values_pd_concat frames :
  values (pd_concat frames) = concat (map values frames).
Proof.
  unfold values, pd_concat.
  induction frames as [|f frames IH]; simpl; [done|].
  by rewrite map_app, IH.
Qed.

Lemma row_pairs_concat (parts : list (list row)) :
  concat (map (fun d => concat (map (row_pairs english filter_stopwords) d)) parts)
  = concat (map (row_pairs english filter_stopwords) (concat parts)).
Proof.
  induction parts as [|d parts IH]; simpl; [done|].
  by rewrite map_app, concat_app, IH.
Qed.

(** C2: for every count of partitions from one on, the frame that
    [parallelize] builds from the partitions has the rows that
    [tokenize_data] gives for the whole frame, in the same order. *)
Theorem C2_parallelize_same_rows (df : list row) (partitions : nat) :
  1 <= partitions ->
  exists end_df,
    parallelize partitions
      (fun d => fst (tokenize_data english d filter_stopwords)) df = Ok end_df
    /\ values end_df = values (fst (tokenize_data english df filter_stopwords)).
Proof.
  intros Hn. unfold parallelize.
  destruct (array_split_concat df partitions Hn) as (parts & -> & _ & Hparts).
  eexists. split; [reflexivity|].
  rewrite values_pd_concat, map_map.
  rewrite (map_ext _ (fun d => concat (map (row_pairs english filter_stopwords) d)))
    by (intros d; apply tokenize_data_values).
  by rewrite row_pairs_concat, Hparts, tokenize_data_values.
Qed.

End Parallel.

(** C2 at a frame of three rows and two partitions. *)
Lemma C2_witness :
  exists end_df,
    parallelize 2 (fun d => fst (tokenize_data [] d false))
      [Row 0 (py "INTJ") (py "Hi :D|||ok"); Row 1 (py "ENFP") [];
       Row 2 (py "INTP") (py "a b")] = Ok end_df
    /\ values end_df
       = values (fst (tokenize_data []
           [Row 0 (py "INTJ") (py "Hi :D|||ok"); Row 1 (py "ENFP") [];
            Row 2 (py "INTP") (py "a b")] false)).
Proof. apply (C2_parallelize_same_rows [] false _ 2). lia. Defined.

(** ** Success rates *)

Lemma elem_of_insert_sorted (x y : str) (l : list str) :
  y ∈ insert_sorted x l <-> y = x \/ y ∈ l.
Proof.
  induction l as [|z l IH]; simpl.
  - rewrite list_elem_of_singleton. split; [auto|]. intros [?|H]; [done|].
    by apply elem_of_nil in H.
  - destruct (str_leb z x).
    + rewrite !elem_of_cons, IH. tauto.
    + rewrite !elem_of_cons. tauto.
Qed.

(** [sorted] returns the items of its argument. *)
Lemma elem_of_sorted (y : str) (l : list str) : y ∈ sorted l <-> y ∈ l.
Proof.
  unfold sorted.
  assert (H : forall acc, y ∈ fold_left (fun acc x => insert_sorted x acc) l acc
                          <-> y ∈ acc \/ y ∈ l).
  { induction l as [|x l IH]; intros acc; simpl.
    - split; [auto|]. intros [?|H]; [done|]. by apply elem_of_nil in H.
    - rewrite IH, elem_of_insert_sorted, elem_of_cons. tauto. }
  rewrite H. split; [|auto]. intros [E|?]; [|done]. by apply elem_of_nil in E.
Qed.

(** The loop over the groups assigns the names of the groups and no other
    key. *)
Lemma rates_loop_other (name : str) (groups : list (str * list pred_row)) :
  name ∉ map fst groups -> fst (rates_loop groups) !! name = None.
Proof.
  unfold rates_loop.
  assert (H : forall st : gmap str Q * option (str * Q),
    name ∉ map fst groups ->
    fst (fold_left (fun st g =>
                      let frac := frac_of (snd g) in
                      (<[fst g := frac]> (fst st), Some (fst g, frac)))
                   groups st) !! name = fst st !! name).
  { induction groups as [|g groups IH]; intros st Hn; simpl in *; [done|].
    apply not_elem_of_cons in Hn as [Hne Hn].
    rewrite IH by done. simpl. by rewrite lookup_insert_ne. }
  intros Hn. rewrite H by done. apply lookup_empty.
Qed.

Lemma groupby_label_names (labels_pred : list pred_row) (name : str) :
  name ∈ map fst (groupby_label labels_pred) -> name ∈ map label labels_pred.
Proof.
  unfold groupby_label. rewrite map_map. simpl. rewrite map_id.
  rewrite elem_of_sorted. apply elem_of_remove_dups.
Qed.

Lemma labels_of_zip (labels predictions : list str) (name : str) :
  name ∈ map label (zip_with (fun l p => PredRow l p (bool_decide (p = l)))
                             labels predictions) ->
  name ∈ labels.
Proof.
  revert predictions. induction labels as [|l labels IH]; intros [|p ps]; simpl;
    try (intros H; by apply elem_of_nil in H).
  intros [->|H]%elem_of_cons; [left | right; eauto].
Qed.

(** C8: for sequences of one length, the mapping of success rates is
    returned without an error and has no value, hence no zero, for a label
    that does not occur among the actual labels. *)
Theorem C8_absent_label_has_no_rate (labels predictions : list str) (name : str) :
  length labels = length predictions ->
  name ∉ labels ->
  exists fracs : gmap str Q,
    success_rates labels predictions true = ([], Ok (Some fracs))
    /\ fracs !! name = None.
Proof.
  intros Hlen Hname. unfold success_rates.
  rewrite Hlen, Nat.eqb_refl. simpl.
  destruct (rates_loop _) as [fracs last] eqn:E.
  exists fracs. split; [reflexivity|].
  change fracs with (fst (fracs, last)). rewrite <- E.
  apply rates_loop_other. intros Hin. apply Hname.
  eapply labels_of_zip, groupby_label_names, Hin.
Qed.

(** C8 at two test rows and the label ["ENFP"], which is not among them. *)
Lemma C8_witness :
  exists fracs : gmap str Q,
    success_rates (map py ["INTJ"; "INTP"]) (map py ["INTJ"; "ENFP"]) true
    = ([], Ok (Some fracs))
    /\ fracs !! py "ENFP" = None.
Proof.
  apply (C8_absent_label_has_no_rate (map py ["INTJ"; "INTP"])
           (map py ["INTJ"; "ENFP"]) (py "ENFP")).
  - reflexivity.
  - apply (bool_decide_unpack _). vm_compute. exact I.
Defined.

(** ** The dispatcher *)

Lemma main_unknown_keyword (argv : list str) :
  length argv = 2 -> nth 1 argv [] ∉ keywords ->
  NLPAnalysis.main argv
  = NLPAnalysis.Print (py "Incorrect keyword; please try again.").
Proof.
  intros Hlen Hkw. unfold NLPAnalysis.main. rewrite Hlen. simpl.
  unfold keywords in Hkw. simpl in Hkw.
  repeat (apply not_elem_of_cons in Hkw as [Hne Hkw];
          rewrite (bool_decide_eq_false_2 _ Hne); clear Hne).
  reflexivity.
Qed.

Lemma main_wrong_count (argv : list str) :
  length argv <> 2 ->
  NLPAnalysis.main argv
  = NLPAnalysis.Print
      (py "Incorrect number of keywords; please enter only one keyword.").
Proof.
  intros Hlen. unfold NLPAnalysis.main.
  by destruct (Nat.eqb_spec (length argv) 2).
Qed.

(** C9, as the code has it: with an unknown keyword or with another number
    of arguments than one keyword, a run whose statements above the block
    end without an exception prints one line, calls nothing and has the
    exit status zero; a run in which they raise does not reach the
    dispatcher and has the exit status 1. *)
Theorem C9_usage_line_and_status_zero (argv : list str) (raises : NLPAnalysis.action -> bool) :
  length argv <> 2 \/ nth 1 argv [] ∉ keywords ->
  (exists line,
     NLPAnalysis.script true argv = NLPAnalysis.Reached (NLPAnalysis.Print line))
  /\ NLPAnalysis.exit_status raises (NLPAnalysis.script true argv) = 0%Z
  /\ NLPAnalysis.script false argv = NLPAnalysis.Crashed
  /\ NLPAnalysis.exit_status raises (NLPAnalysis.script false argv) = 1%Z.
Proof.
  intros H. unfold NLPAnalysis.script.
  destruct (decide (length argv = 2)) as [Hlen|Hlen].
  - destruct H as [H|H]; [done|].
    rewrite (main_unknown_keyword argv Hlen H). eauto.
  - rewrite (main_wrong_count argv Hlen). eauto.
Qed.

(** C9 at the arguments [NLPAnalysis.py bogus]. *)
Lemma C9_witness :
  (exists line,
     NLPAnalysis.script true (map py ["NLPAnalysis.py"; "bogus"])
     = NLPAnalysis.Reached (NLPAnalysis.Print line))
  /\ NLPAnalysis.exit_status (fun _ => true)
       (NLPAnalysis.script true (map py ["NLPAnalysis.py"; "bogus"])) = 0%Z
  /\ NLPAnalysis.script false (map py ["NLPAnalysis.py"; "bogus"])
     = NLPAnalysis.Crashed
  /\ NLPAnalysis.exit_status (fun _ => true)
       (NLPAnalysis.script false (map py ["NLPAnalysis.py"; "bogus"])) = 1%Z.
Proof.
  apply (C9_usage_line_and_status_zero (map py ["NLPAnalysis.py"; "bogus"])).
  right. apply (bool_decide_unpack _). vm_compute. exact I.
Defined.

(** C9 fails as stated: with the arguments [NLPAnalysis.py bogus] no run
    has both a status other than zero and a usage line, whether the
    statements above the block raise or not. *)
Lemma C9_counterexample :
  ~ (exists module_level_ok : bool,
       NLPAnalysis.exit_status (fun _ => true)
         (NLPAnalysis.script module_level_ok (map py ["NLPAnalysis.py"; "bogus"]))
       <> 0%Z
       /\ exists line,
            NLPAnalysis.script module_level_ok (map py ["NLPAnalysis.py"; "bogus"])
            = NLPAnalysis.Reached (NLPAnalysis.Print line)).
Proof.
  intros ([|] & Hstatus & line & Hline).
  - apply Hstatus. reflexivity.
  - discriminate Hline.
Qed.

(** ** Grid search *)

Section Max.

Context {A K : Type}.
Variable gtb : K -> K -> bool.
Variable key : A -> K.

(** [>] on the keys is a strict weak order, as it is on numbers. *)
Hypothesis gtb_asym : forall a b, gtb a b = true -> gtb b a = false.
Hypothesis gtb_cotrans :
  forall a b c, gtb a b = true -> gtb a c = true \/ gtb c b = true.

Lemma gtb_irrefl a : gtb a a = false.
Proof.
  destruct (gtb a a) eqn:E; [|done].
  pose proof (gtb_asym _ _ E). congruence.
Qed.

(** [max] returns the first item among those with the greatest key. *)
Lemma py_max_first (l : list A) :
  l <> [] ->
  exists i best,
    py_max gtb key l = Ok best
    /\ l !! i = Some best
    /\ (forall e, e ∈ l -> gtb (key e) (key best) = false)
    /\ (forall j e, j < i -> l !! j = Some e -> gtb (key best) (key e) = true).
Proof.
  destruct l as [|x l]; [done|]. intros _. simpl.
  induction l as [|y l IH] using rev_ind.
  - exists 0, x. simpl. repeat split.
    + intros e ->%list_elem_of_singleton. apply gtb_irrefl.
    + intros j e Hj. lia.
  - destruct IH as (i & best & [= Hbest] & Hi & Hmax & Hfirst).
    rewrite fold_left_app. simpl. rewrite Hbest.
    assert (Hlt : i < length (x :: l)) by (by eapply lookup_lt_Some).
    destruct (gtb (key y) (key best)) eqn:Hy.
    + assert (Hall : forall e, e ∈ x :: l -> gtb (key y) (key e) = true).
      { intros e He. destruct (gtb_cotrans _ _ (key e) Hy) as [?|Hc]; [done|].
        rewrite (Hmax e He) in Hc. discriminate. }
      exists (length (x :: l)), y. repeat split.
      * change (x :: l ++ [y]) with ((x :: l) ++ [y]).
        by rewrite lookup_app_r, Nat.sub_diag.
      * intros e He. change (x :: l ++ [y]) with ((x :: l) ++ [y]) in He.
        apply elem_of_app in He as [He|He].
        -- apply gtb_asym. by apply Hall.
        -- apply list_elem_of_singleton in He as ->. apply gtb_irrefl.
      * intros j e Hj He. change (x :: l ++ [y]) with ((x :: l) ++ [y]) in He.
        rewrite lookup_app_l in He by done.
        apply Hall. by eapply list_elem_of_lookup_2.
    + exists i, best. repeat split.
      * change (x :: l ++ [y]) with ((x :: l) ++ [y]).
        by rewrite lookup_app_l.
      * intros e He. change (x :: l ++ [y]) with ((x :: l) ++ [y]) in He.
        apply elem_of_app in He as [He|He]; [auto|].
        by apply list_elem_of_singleton in He as ->.
      * intros j e Hj He. change (x :: l ++ [y]) with ((x :: l) ++ [y]) in He.
        rewrite lookup_app_l in He by lia. eauto.
Qed.

End Max.

Section GridSearchProofs.

Variables pvalue score cv_results estimator data : Type.
Variable gtb : score -> score -> bool.
Variable GridSearchCV_fit :
  estimator -> gmap str (list pvalue) -> Z -> data -> data
  -> fitted pvalue score cv_results.

Lemma print_params_ok (best_parameters : gmap str pvalue) names :
  (forall name, name ∈ names -> is_Some (best_parameters !! name)) ->
  exists lines,
    print_params pvalue score cv_results names best_parameters = (lines, Ok tt)
    /\ Forall2 (param_line_of best_parameters) names lines.
Proof.
  induction names as [|name names IH]; intros Hall; simpl.
  - exists []. split; [done | constructor].
  - destruct (Hall name) as [v Hv]; [left|]. rewrite Hv.
    destruct IH as (lines & -> & HF); [intros; apply Hall; by right|].
    eexists. split; [reflexivity|]. constructor; [by exists v | done].
Qed.

Lemma sorted_keys_lookup (parameters : gmap str (list pvalue)) name :
  name ∈ sorted_keys pvalue parameters -> is_Some (parameters !! name).
Proof.
  unfold sorted_keys. rewrite elem_of_sorted.
  intros ([k v] & -> & Hkv)%list_elem_of_fmap.
  apply elem_of_map_to_list in Hkv. by exists v.
Qed.

(** Neither script returns a value from [grid_search]. *)
Lemma grid_search_returns_none clf parameters jobs X y :
  (forall v, snd (HelperFunctions.grid_search pvalue score cv_results estimator
                    data gtb GridSearchCV_fit clf parameters jobs X y)
             <> Ok (Some v))
  /\ (forall v, snd (NLPAnalysis.grid_search pvalue score cv_results estimator
                       data gtb GridSearchCV_fit clf parameters jobs X y)
                <> Ok (Some v)).
Proof.
  unfold HelperFunctions.grid_search, NLPAnalysis.grid_search.
  destruct (report_best _ _ _ _ _ _) as [out [[]|e]]; split; intros v; discriminate.
Qed.

Hypothesis gtb_asym : forall a b, gtb a b = true -> gtb b a = false.
Hypothesis gtb_cotrans :
  forall a b c, gtb a b = true -> gtb a c = true \/ gtb c b = true.

(** C7, as the code has it: [grid_search] prints, for the first item of
    [grid_scores_] among those with the greatest mean score, the value of
    every parameter name in sorted order and then the score (in
    [helper_functions.py] also [cv_results_]), and returns [None]. *)
Theorem C7_grid_search_prints_first_best (clf : estimator)
    (parameters : gmap str (list pvalue)) (jobs : Z) (X y : data) :
  grid_scores_ _ _ _ (GridSearchCV_fit clf parameters jobs X y) <> [] ->
  (forall e name,
     e ∈ grid_scores_ _ _ _ (GridSearchCV_fit clf parameters jobs X y) ->
     is_Some (parameters !! name) -> is_Some (e.1.1 !! name)) ->
  reports_first_best gtb GridSearchCV_fit clf parameters jobs X y.
Proof.
  intros Hne Hkeys. unfold reports_first_best.
  destruct (py_max_first gtb (fun x : gmap str pvalue * score * list score => x.1.2)
              gtb_asym gtb_cotrans _ Hne)
    as (i & [[bp bs] folds] & Hmax & Hi & Hbest & Hfirst).
  destruct (print_params_ok bp (sorted_keys pvalue parameters))
    as (lines & Hprint & HF).
  { intros name Hname. apply (Hkeys (bp, bs, folds) name).
    - by eapply list_elem_of_lookup_2.
    - by apply sorted_keys_lookup. }
  exists i, bp, bs, folds, lines. repeat split; [done..| |].
  - unfold HelperFunctions.grid_search, report_best.
    simpl in Hmax. rewrite Hmax. simpl. rewrite Hprint.
    by rewrite <- app_assoc.
  - unfold NLPAnalysis.grid_search, report_best.
    simpl in Hmax. rewrite Hmax. simpl. by rewrite Hprint.
Qed.

End GridSearchProofs.

(** C7 at the search over [alpha]. *)
Lemma C7_witness : reports_first_best Z.gtb alpha_fit tt alpha_grid 1 tt tt.
Proof.
  apply (C7_grid_search_prints_first_best Z Z unit unit unit Z.gtb alpha_fit).
  - intros a b. rewrite !Z.gtb_ltb, Z.ltb_lt, Z.ltb_ge. lia.
  - intros a b c. rewrite !Z.gtb_ltb, !Z.ltb_lt. lia.
  - discriminate.
  - intros e name He [v Hv]. unfold alpha_grid in Hv.
    apply lookup_singleton_Some in Hv as [<- _].
    simpl in He.
    repeat (apply elem_of_cons in He as [->|He];
            [simpl; rewrite lookup_singleton_eq; by eexists|]).
    by apply elem_of_nil in He.
Defined.

(** C7 fails as stated: [grid_search] returns no triple. *)
Lemma C7_counterexample :
  ~ (exists best_params best_score all_results,
       snd (HelperFunctions.grid_search Z Z unit unit unit Z.gtb alpha_fit
              tt alpha_grid 1 tt tt)
       = Ok (Some (best_params, best_score, all_results))).
Proof.
  intros (bp & bs & res & H).
  by apply (proj1 (grid_search_returns_none Z Z unit unit unit Z.gtb alpha_fit
                     tt alpha_grid 1 tt tt)) in H.
Qed.

(** ** The model on concrete inputs *)

Example findall_scenario :
  findall token_re (py "I luv :) this!!! http://x.co #mbti @bob")
  = map py ["I"; "luv"; ":)"; "this"; "!"; "!"; "!"; "http://x.co"; "#mbti";
            "@bob"].
Proof. vm_compute. reflexivity. Qed.

Example findall_numbers_tags :
  findall token_re (py "RT @Bob: 1,000.5 isn't <b x> :-D :oP well-known 10%")
  = map py ["RT"; "@Bob"; ":"; "1,000.5"; "isn't"; "<b x>"; ":-D"; ":oP";
            "well-known"; "10"; "%"].
Proof. vm_compute. reflexivity. Qed.

Example emoticon_re_examples :
  map emoticon_re_search (map py [":)"; ":o"; ":-D"; "=p"; "x"; ":"; ":))"])
  = [true; true; true; true; false; false; false].
Proof. vm_compute. reflexivity. Qed.

Example check_emoticons_lowercase :
  check_emoticons (map py ["Hi"; ":D"; "YES"; "=P"]) true
  = map py ["hi"; ":D"; "yes"; "=P"].
Proof. vm_compute. reflexivity. Qed.

Example split_bars_examples :
  map (split_bars []) (map py [""; "a|||b"; "a||||b"; "|||"; "a|||b||"])
  = [[[]]; map py ["a"; "b"]; map py ["a"; "|b"]; [[]; []]; map py ["a"; "b||"]].
Proof. vm_compute. reflexivity. Qed.

Example remove_stopwords_example :
  remove_stopwords (map py ["the"; "a"]) (map py ["the"; "cat"; "!"; "a"; "hat"; ":)"])
  = map py ["cat"; "hat"; ":)"].
Proof. vm_compute. reflexivity. Qed.

Example tokenize_data_example :
  tokenize_data [] [Row 0 (py "INTJ") (py "Hi :D|||ok"); Row 7 (py "ENFP") []] false
  = ([(0%Z, (py "INTJ", map py ["Hi"; ":D"]));
      (1%Z, (py "INTJ", map py ["ok"]));
      (2%Z, (py "ENFP", []))],
     [RowDone 0 2]).
Proof. vm_compute. reflexivity. Qed.

Example array_split_example :
  array_split [1; 2; 3; 4; 5; 6; 7] 3 = Ok [[1; 2; 3]; [4; 5]; [6; 7]]
  /\ array_split [1; 2] 3 = Ok [[1]; [2]; []]
  /\ array_split [1; 2] 0 = Raise ValueError.
Proof. repeat split. Qed.

(** The partitions keep their own index labels in the frame [pd.concat]
    builds. *)
Example parallelize_example :
  parallelize 2 (fun d => fst (tokenize_data [] d false))
    [Row 0 (py "INTJ") (py "a|||b"); Row 1 (py "ENFP") (py "c")]
  = Ok [(0%Z, (py "INTJ", map py ["a"]));
        (1%Z, (py "INTJ", map py ["b"]));
        (0%Z, (py "ENFP", map py ["c"]))].
Proof. vm_compute. reflexivity. Qed.

Example success_rates_print :
  success_rates (map py ["B"; "A"; "B"]) (map py ["B"; "A"; "A"]) false
  = ([RateLine (py "B") (1 # 2)], Ok None)
  /\ success_rates [] [] false = ([], Raise NameError)
  /\ success_rates (map py ["A"]) [] true = ([], Raise ValueError).
Proof. repeat split; vm_compute; reflexivity. Qed.

Example grid_search_alpha :
  HelperFunctions.grid_search Z Z unit unit unit Z.gtb alpha_fit tt alpha_grid 1 tt tt
  = ([ParamLine Z Z unit (py "alpha") 10%Z; ScoreLine Z Z unit 70%Z;
      ResultsLine Z Z unit tt], Ok None).
Proof. vm_compute. reflexivity. Qed.

Example main_examples :
  NLPAnalysis.main (map py ["NLPAnalysis.py"; "NB"])
  = NLPAnalysis.Call NLPAnalysis.naive_bayes_model
  /\ NLPAnalysis.main (map py ["NLPAnalysis.py"; "nb"])
     = NLPAnalysis.Print (py "Incorrect keyword; please try again.")
  /\ NLPAnalysis.main (map py ["NLPAnalysis.py"])
     = NLPAnalysis.Print
         (py "Incorrect number of keywords; please enter only one keyword.").
Proof. repeat split. Qed.

(** * Further properties of the code *)

(** ** Matches are strings of the pattern *)

Section Soundness.

Lemma star_loop_sound a body k n : forall s x,
  (forall s0 k0 x0, body s0 k0 = Some x0 ->
     exists tok rest, s0 = tok ++ rest /\ lang a tok /\ k0 rest = Some x0) ->
  star_loop body k n s = Some x ->
  exists tok rest, s = tok ++ rest /\ lang (Star a) tok /\ k rest = Some x.
Proof.
  intros s x Hbody. revert s. induction n as [|n IH]; intros s; simpl.
  - intros Hk. exists [], s. repeat split; [constructor | done].
  - destruct (body s _) as [y|] eqn:E.
    + intros [= ->]. apply Hbody in E as (tok1 & rest1 & -> & Hl1 & Hk1).
      destruct (length rest1 <? _); [|discriminate].
      apply IH in Hk1 as (tok2 & rest2 & -> & Hl2 & Hk2).
      exists (tok1 ++ tok2), rest2.
      repeat split; [by rewrite app_assoc | by constructor | done].
    + intros Hk. exists [], s. repeat split; [constructor | done].
Qed.

(** Whatever the matcher takes from the subject is a string of the
    pattern. *)
Lemma rmatch_sound r : forall s k x,
  rmatch r s k = Some x ->
  exists tok rest, s = tok ++ rest /\ lang r tok /\ k rest = Some x.
Proof.
  induction r as [|p|a IHa b IHb|a IHa b IHb|a IHa]; intros s k x; simpl.
  - intros Hk. exists [], s. repeat split; [constructor | done].
  - destruct s as [|c s']; [discriminate|].
    destruct (p c) eqn:Hp; [|discriminate].
    intros Hk. exists [c], s'. repeat split; [by constructor | done].
  - intros H. apply IHa in H as (tok1 & rest1 & -> & Hl1 & H).
    apply IHb in H as (tok2 & rest2 & -> & Hl2 & H).
    exists (tok1 ++ tok2), rest2.
    repeat split; [by rewrite app_assoc | by constructor | done].
  - destruct (rmatch a s k) as [y|] eqn:E.
    + intros [= ->]. apply IHa in E as (tok & rest & -> & Hl & H).
      exists tok, rest. repeat split; [by apply lang_alt_l | done].
    + intros H. apply IHb in H as (tok & rest & -> & Hl & H).
      exists tok, rest. repeat split; [by apply lang_alt_r | done].
  - intros H. eapply star_loop_sound in H; [exact H|].
    intros s0 k0 x0 H0. by apply IHa.
Qed.

Lemma match_at_lang r s n : match_at r s = Some n -> lang r (take n s).
Proof.
  unfold match_at. destruct (rmatch r s Some) as [rest|] eqn:E; [|discriminate].
  intros [= <-]. apply rmatch_sound in E as (tok & rest' & -> & Hl & [= ->]).
  rewrite length_app, Nat.add_sub. by rewrite take_app_length.
Qed.

Lemma findall_from_lang r s : forall skip tok,
  tok ∈ findall_from r skip s -> lang r tok.
Proof.
  induction s as [|c s IH]; intros skip tok; simpl.
  - destruct skip; [|by intros H%elem_of_nil].
    destruct (rmatch r [] Some) as [rest|] eqn:E; [|by intros H%elem_of_nil].
    intros ->%list_elem_of_singleton.
    apply rmatch_sound in E as (tok & rest' & Hs & Hl & _).
    symmetry in Hs. by apply app_eq_nil in Hs as [-> _].
  - destruct skip as [|j]; [|apply IH].
    destruct (match_at r (c :: s)) as [[|j]|] eqn:E; [| |apply IH].
    + intros [->|H]%elem_of_cons; [|by eapply IH].
      by apply match_at_lang in E.
    + intros [->|H]%elem_of_cons; [|by eapply IH].
      by apply match_at_lang in E.
Qed.

Lemma lang_Alts l last tok :
  lang (Alts l last) tok -> exists r, r ∈ l ++ [last] /\ lang r tok.
Proof.
  induction l as [|a l IH]; simpl.
  - intros H. exists last. split; [left | done].
  - intros H. inversion H as [| | |? ? ? Ha|? ? ? Hb| |]; subst.
    + exists a. split; [left | done].
    + destruct (IH Hb) as (r & Hr & Hl). exists r. split; [by right | done].
Qed.

End Soundness.

(** ** More on the tokenizer *)

(** Case analysis on the 256 characters. *)
Ltac each_char c := destruct c as [[] [] [] [] [] [] [] []].

Lemma token_re_space_fails c s :
  is_space c = true -> rmatch token_re (c :: s) Some = None.
Proof.
  intros Hc. each_char c; try (vm_compute in Hc; discriminate Hc);
    vm_compute; reflexivity.
Qed.

Lemma findall_token_re_head text : forall skip tok,
  tok ∈ findall_from token_re skip text ->
  exists c rest, tok = c :: rest /\ is_space c = false.
Proof.
  induction text as [|c s IH]; intros skip tok; simpl.
  - destruct skip; [|by intros H%elem_of_nil].
    change (rmatch token_re [] Some) with (@None str). by intros H%elem_of_nil.
  - destruct skip as [|j]; [|apply IH].
    destruct (match_at token_re (c :: s)) as [[|j]|] eqn:E; [| |apply IH].
    + apply match_at_prefix in E as [_ Hpos].
      specialize (Hpos token_re_consumes). lia.
    + intros [->|H]%elem_of_cons; [|by eapply IH].
      exists c, (take j s). split; [done|].
      destruct (is_space c) eqn:Hc; [|done].
      unfold match_at in E. by rewrite (token_re_space_fails c s Hc) in E.
Qed.

Lemma covers_concat text toks :
  covers text toks ->
  List.filter (fun c => negb (is_space c)) (concat toks)
  = List.filter (fun c => negb (is_space c)) text.
Proof.
  induction 1 as [|c s toks Hsp _ IH|tok s toks _ IH]; simpl.
  - done.
  - by rewrite Hsp.
  - by rewrite !List.filter_app, IH.
Qed.

Section TokenizerMore.

Variable english : list str.

(** X1: every token the tokenizer returns is, as a whole, a string of one
    of the nine patterns of [regex_str]. *)
Theorem X1_token_is_match_of_a_pattern (filter_stopwords : bool)
    (text tok : str) :
  tok ∈ tokenize_tweet english filter_stopwords text ->
  exists r, r ∈ regex_str /\ lang r tok.
Proof.
  intros Htok.
  assert (Hin : tok ∈ findall token_re text).
  { unfold tokenize_tweet in Htok. simpl in Htok.
    destruct filter_stopwords; [by apply remove_stopwords_subset in Htok | done]. }
  apply findall_from_lang in Hin. unfold token_re in Hin.
  by apply lang_Alts in Hin.
Qed.

(** X2: no token is empty, and no token begins with a whitespace
    character. *)
Theorem X2_token_starts_with_non_space (filter_stopwords : bool)
    (text tok : str) :
  tok ∈ tokenize_tweet english filter_stopwords text ->
  exists c rest, tok = c :: rest /\ is_space c = false.
Proof.
  intros Htok. apply (findall_token_re_head text 0).
  unfold tokenize_tweet in Htok. simpl in Htok.
  destruct filter_stopwords; [by apply remove_stopwords_subset in Htok | done].
Qed.

(** X3: the tokens one after the other, whitespace left out, are the text,
    whitespace left out: no character is doubled or moved. *)
Theorem X3_tokens_concat_is_text (text : str) :
  List.filter (fun c => negb (is_space c))
    (concat (tokenize_tweet english false text))
  = List.filter (fun c => negb (is_space c)) text.
Proof. apply covers_concat, findall_token_re_covers. Qed.

(** X4: a text of whitespace only has no tokens. *)
Theorem X4_whitespace_has_no_tokens (filter_stopwords : bool) (text : str) :
  (forall c, c ∈ text -> is_space c = true) ->
  tokenize_tweet english filter_stopwords text = [].
Proof.
  intros Hall.
  assert (H : findall token_re text = []).
  { unfold findall. induction text as [|c s IH]; [reflexivity|]. simpl.
    unfold match_at. rewrite token_re_space_fails by (apply Hall; left).
    apply IH. intros c' Hc'. apply Hall. by right. }
  unfold tokenize_tweet. simpl. rewrite H. by destruct filter_stopwords.
Qed.

End TokenizerMore.

(** X1 at the text ["ok :)"] and its token [":)"]. *)
Lemma X1_witness : exists r, r ∈ regex_str /\ lang r (py ":)").
Proof.
  apply (X1_token_is_match_of_a_pattern [] false (py "ok :)") (py ":)")).
  vm_compute. right. left.
Defined.

(** X2 at the text ["ok :)"] and its token [":)"]. *)
Lemma X2_witness : exists c rest, py ":)" = c :: rest /\ is_space c = false.
Proof.
  apply (X2_token_starts_with_non_space [] false (py "ok :)") (py ":)")).
  vm_compute. right. left.
Defined.

(** X4 at a text of two blanks. *)
Lemma X4_witness : tokenize_tweet [] true (py "  ") = [].
Proof.
  apply (X4_whitespace_has_no_tokens [] true (py "  ")).
  intros c Hc. apply list_elem_of_In in Hc. simpl in Hc.
  destruct Hc as [<-|[<-|[]]]; reflexivity.
Defined.

(** ** Emoticons *)

Lemma at_end_iff (s : str) :
  at_end s = true <-> s = [] \/ s = [ascii_of_N 10].
Proof.
  destruct s as [|c [|d s]]; unfold at_end, is_char.
  - split; [auto | done].
  - rewrite Ascii.eqb_eq. split.
    + intros E. right. by rewrite <- E.
    + intros [?|[= E]]; [done | by rewrite E].
  - split; [done | intros [?|?]; done].
Qed.

Section Shape.

#[local] Arguments at_end : simpl never.

(** A pattern [^ e n? m $] accepts the strings [e m] and [e n m], with or
    without a newline at the end. *)
Lemma search_anchored_three (pe pn pm : ascii -> bool) (t : str) :
  search_anchored (Seq (Chr pe) (Seq (Opt (Chr pn)) (Chr pm))) t = true
  <-> exists e m nl,
        pe e = true /\ pm m = true /\ at_end nl = true
        /\ (t = e :: m :: nl \/ exists n, pn n = true /\ t = e :: n :: m :: nl).
Proof.
  unfold search_anchored. split.
  - destruct t as [|e t]; simpl; [done|].
    destruct (pe e) eqn:He; [|done].
    destruct t as [|x t]; simpl; [done|].
    destruct (pn x) eqn:Hx.
    + destruct t as [|y t]; simpl.
      * destruct (pm x) eqn:Hm; [|done]. intros _.
        exists e, x, []. repeat split; auto.
      * destruct (pm y) eqn:Hy.
        -- destruct (at_end t) eqn:Ht.
           ++ intros _. exists e, y, t. repeat split; eauto.
           ++ destruct (pm x) eqn:Hm; [|done].
              destruct (at_end (y :: t)) eqn:Hyt; [|done]. intros _.
              exists e, x, (y :: t). repeat split; auto.
        -- destruct (pm x) eqn:Hm; [|done].
           destruct (at_end (y :: t)) eqn:Hyt; [|done]. intros _.
           exists e, x, (y :: t). repeat split; auto.
    + destruct (pm x) eqn:Hm; [|done].
      destruct (at_end t) eqn:Ht; [|done]. intros _.
      exists e, x, t. repeat split; auto.
  - intros (e & m & nl & He & Hm & Hnl & [->|(n & Hn & ->)]); simpl; rewrite He.
    + destruct (pn m) eqn:Hx; [|by rewrite Hm, Hnl].
      destruct nl as [|y t]; simpl; [by rewrite Hm|].
      destruct (pm y), (at_end t); try done; by rewrite Hm, Hnl.
    + by rewrite Hn, Hm, Hnl.
Qed.

End Shape.

Lemma eyes_chars_spec c : icase (chars ":=;") c = true <-> c ∈ eyes_chars.
Proof.
  rewrite <- (bool_decide_spec (c ∈ eyes_chars)), <- Is_true_true.
  each_char c; vm_compute; tauto.
Qed.

Lemma nose_chars_spec c : icase (chars "oO-") c = true <-> c ∈ nose_chars.
Proof.
  rewrite <- (bool_decide_spec (c ∈ nose_chars)), <- Is_true_true.
  each_char c; vm_compute; tauto.
Qed.

Lemma mouth_chars_spec c :
  icase (chars "D)](]/\OpPd") c = true <-> c ∈ mouth_chars.
Proof.
  rewrite <- (bool_decide_spec (c ∈ mouth_chars)), <- Is_true_true.
  each_char c; vm_compute; tauto.
Qed.

(** X5: [emoticon_re] accepts exactly the strings of an eyes character, at
    most one nose character and a mouth character, with or without one
    newline behind them. *)
Theorem X5_emoticon_re_shape (token : str) :
  emoticon_re_search token = true
  <-> exists e m nl,
        e ∈ eyes_chars /\ m ∈ mouth_chars
        /\ (nl = [] \/ nl = [ascii_of_N 10])
        /\ (token = e :: m :: nl
            \/ exists n, n ∈ nose_chars /\ token = e :: n :: m :: nl).
Proof.
  unfold emoticon_re_search, emoticons_str, cls.
  rewrite search_anchored_three. split.
  - intros (e & m & nl & He & Hm & Hnl & H). exists e, m, nl.
    rewrite <- eyes_chars_spec, <- mouth_chars_spec, <- at_end_iff.
    repeat split; [done..|].
    destruct H as [?|(n & Hn & ?)]; [by left | right].
    exists n. by rewrite <- nose_chars_spec.
  - intros (e & m & nl & He & Hm & Hnl & H). exists e, m, nl.
    rewrite eyes_chars_spec, mouth_chars_spec, at_end_iff.
    repeat split; [done..|].
    destruct H as [?|(n & Hn & ?)]; [by left | right].
    exists n. by rewrite nose_chars_spec.
Qed.

(** Lowercasing a character does not change its lowercase and uppercase
    forms, nor whether it is a newline. *)
Lemma lower_char_idem c : lower_char (lower_char c) = lower_char c.
Proof. each_char c; reflexivity. Qed.

Lemma upper_lower_char c : upper_char (lower_char c) = upper_char c.
Proof. each_char c; reflexivity. Qed.

Lemma icase_lower_char p c : icase p (lower_char c) = icase p c.
Proof. unfold icase. by rewrite lower_char_idem, upper_lower_char. Qed.

Lemma lower_idem (s : str) : lower (lower s) = lower s.
Proof.
  unfold lower. rewrite map_map. apply map_ext. intros c. apply lower_char_idem.
Qed.

Lemma at_end_lower (s : str) : at_end (lower s) = at_end s.
Proof.
  destruct s as [|c [|d s]]; try reflexivity.
  unfold lower, at_end, is_char. simpl map. each_char c; reflexivity.
Qed.

(** [emoticon_re] does not look at the case of the token. *)
Lemma emoticon_re_search_lower (token : str) :
  emoticon_re_search (lower token) = emoticon_re_search token.
Proof.
  apply eq_true_iff_eq. unfold emoticon_re_search, emoticons_str, cls.
  rewrite !search_anchored_three. split.
  - intros (e & m & nl & He & Hm & Hnl & H).
    destruct H as [H|(n & Hn & H)].
    + destruct token as [|e' [|m' nl']]; try discriminate H.
      injection H as <- <- <-. fold (lower nl') in Hnl.
      rewrite icase_lower_char in He, Hm. rewrite at_end_lower in Hnl.
      exists e', m', nl'. auto.
    + destruct token as [|e' [|n' [|m' nl']]]; try discriminate H.
      injection H as <- <- <- <-. fold (lower nl') in Hnl.
      rewrite icase_lower_char in He, Hm, Hn. rewrite at_end_lower in Hnl.
      exists e', m', nl'. repeat split; [done..|]. right. by exists n'.
  - intros (e & m & nl & He & Hm & Hnl & H).
    exists (lower_char e), (lower_char m), (lower nl).
    rewrite !icase_lower_char, at_end_lower. repeat split; [done..|].
    destruct H as [->|(n & Hn & ->)]; [by left | right].
    exists (lower_char n). by rewrite icase_lower_char.
Qed.

(** X6: with [lowercase = True], [check_emoticons] changes nothing when it
    is applied to its own result. *)
Theorem X6_check_emoticons_lowercase_idempotent (tokens : list str) :
  check_emoticons (check_emoticons tokens true) true
  = check_emoticons tokens true.
Proof.
  simpl. rewrite map_map. apply map_ext. intros token.
  destruct (emoticon_re_search token) eqn:E; [by rewrite E|].
  by rewrite emoticon_re_search_lower, E, lower_idem.
Qed.

Lemma rmatch_first_two (pe pn pm : ascii -> bool) (b : regex) (e m : ascii) :
  pe e = true -> pm m = true ->
  rmatch (Alt (Seq (Chr pe) (Seq (Opt (Chr pn)) (Chr pm))) b) [e; m] Some
  = Some [].
Proof. intros He Hm. simpl. rewrite He. destruct (pn m); by rewrite Hm. Qed.

Lemma rmatch_first_three (pe pn pm : ascii -> bool) (b : regex) (e n m : ascii) :
  pe e = true -> pn n = true -> pm m = true ->
  rmatch (Alt (Seq (Chr pe) (Seq (Opt (Chr pn)) (Chr pm))) b) [e; n; m] Some
  = Some [].
Proof. intros He Hn Hm. simpl. by rewrite He, Hn, Hm. Qed.

(** X7: the tokenizer returns a text that [emoticon_re] accepts, and that
    has no newline, as one token. *)
Theorem X7_emoticon_is_one_token (english : list str) (text : str) :
  emoticon_re_search text = true ->
  ascii_of_N 10 ∉ text ->
  tokenize_tweet english false text = [text].
Proof.
  intros Hemo Hnl.
  unfold emoticon_re_search, emoticons_str, cls in Hemo.
  apply search_anchored_three in Hemo
    as (e & m & nl & He & Hm & Hend & H).
  assert (nl = []) as ->.
  { apply at_end_iff in Hend as [->| ->]; [done|]. exfalso. apply Hnl.
    destruct H as [->|(n & _ & ->)]; set_solver. }
  assert (Hnone : rmatch token_re [] Some = None) by reflexivity.
  unfold tokenize_tweet, check_emoticons, lowercase_default, findall.
  destruct H as [->|(n & Hn & ->)].
  - cbn [findall_from]. unfold match_at at 1.
    unfold token_re at 1. cbn [Alts]. unfold emoticons_str at 1, cls at 1 2 3.
    rewrite (rmatch_first_two _ _ _ _ e m He Hm). simpl length. simpl Nat.sub.
    cbn [take]. by rewrite Hnone.
  - cbn [findall_from]. unfold match_at at 1.
    unfold token_re at 1. cbn [Alts]. unfold emoticons_str at 1, cls at 1 2 3.
    rewrite (rmatch_first_three _ _ _ _ e n m He Hn Hm).
    simpl length. simpl Nat.sub. cbn [take]. by rewrite Hnone.
Qed.

(** X7 at the text [":-D"]. *)
Lemma X7_witness : tokenize_tweet [] false (py ":-D") = [py ":-D"].
Proof.
  apply (X7_emoticon_is_one_token [] (py ":-D")).
  - reflexivity.
  - apply (bool_decide_unpack _). vm_compute. exact I.
Defined.

(** ** More on the stopword filter *)

Lemma emoticon_not_one_char (token : str) (c : ascii) :
  emoticon_re_search token = true -> token <> [c].
Proof.
  unfold emoticon_re_search, emoticons_str.
  intros (e & m & nl & _ & _ & _ & [->|(n & _ & ->)])%search_anchored_three;
    discriminate.
Qed.

Section StopwordsMore.

Variable english : list str.

(** X9: the filter never takes an emoticon out of the tokens, unless the
    corpus itself lists it. *)
Theorem X9_remove_stopwords_keeps_emoticons (text : list str) (token : str) :
  token ∈ text -> emoticon_re_search token = true -> token ∉ english ->
  token ∈ remove_stopwords english text.
Proof.
  intros Hin Hemo He. unfold remove_stopwords.
  rewrite list_elem_of_filter, not_elem_of_app, list_elem_of_fmap.
  repeat split; [done| |done].
  intros (c & -> & _). by apply (emoticon_not_one_char [c] c).
Qed.

End StopwordsMore.

(** X9 at the tokens of ["ok :) !"] and the corpus with ["ok"]. *)
Lemma X9_witness :
  py ":)" ∈ remove_stopwords [py "ok"] (map py ["ok"; ":)"; "!"]).
Proof.
  apply (X9_remove_stopwords_keeps_emoticons [py "ok"]
           (map py ["ok"; ":)"; "!"]) (py ":)")).
  - right. left.
  - reflexivity.
  - apply (bool_decide_unpack _). vm_compute. exact I.
Defined.

(** ** More on splitting into posts *)

(** X10: joining the posts of a text with the delimiter gives the text
    back, and no post contains the delimiter. *)
Theorem X10_split_posts_round_trip (s : str) :
  join_bars (split_bars [] s) = s
  /\ forall piece, piece ∈ split_bars [] s ->
       ~ (exists pre post, piece = pre ++ py "|||" ++ post).
Proof.
  split; [apply join_split_bars|].
  apply (split_bars_no_delimiter (length s) s []); [lia|].
  intros (pre & post & _ & Hlen). simpl in Hlen. lia.
Qed.

(** ** More on the corpus preprocessor *)

Section PreprocessorMore.

Variable english : list str.

Lemma rows_loop_out rows filter_stopwords df : forall token_list out,
  snd (fold_left (tokenize_row english rows filter_stopwords) df (token_list, out))
  = out ++ map (fun r => RowDone (index r) rows)
               (filter (fun r => (index r mod 100 = 0)%Z) df).
Proof.
  induction df as [|r df IH]; intros tl out; simpl.
  - by rewrite app_nil_r.
  - rewrite IH, filter_cons.
    destruct (Z.eqb_spec (index r mod 100) 0) as [E|E].
    + rewrite decide_True by done. simpl. by rewrite <- app_assoc.
    + by rewrite decide_False by done.
Qed.

(** X12: [tokenize_data] prints one progress line for every row whose
    index label is a multiple of 100, in the order of the rows and with
    the number of rows of the frame, whether it filters stopwords or not. *)
Theorem X12_tokenize_data_progress (df : list row) (filter_stopwords : bool) :
  snd (tokenize_data english df filter_stopwords)
  = map (fun r => RowDone (index r) (length df))
        (filter (fun r => (index r mod 100 = 0)%Z) df).
Proof.
  unfold tokenize_data.
  pose proof (rows_loop_out (length df) filter_stopwords df [] []) as H.
  destruct (fold_left _ df _) as [token_list out]. exact H.
Qed.

(** X13: preprocessing with [filter_stopwords] gives the pairs of
    preprocessing without it, with [remove_stopwords] applied to the
    tokens of every pair. *)
Theorem X13_tokenize_data_filter_afterwards (df : list row) :
  values (fst (tokenize_data english df true))
  = map (fun p => (fst p, remove_stopwords english (snd p)))
        (values (fst (tokenize_data english df false))).
Proof.
  rewrite !tokenize_data_values.
  induction df as [|r df IH]; simpl; [done|].
  rewrite map_app, IH. f_equal.
  unfold row_pairs. by rewrite map_map.
Qed.

Lemma filter_join_bars (p : ascii -> bool) (pieces : list str) :
  List.filter p (py "|||") = py "|||" ->
  List.filter p (join_bars pieces) = join_bars (map (List.filter p) pieces).
Proof.
  intros Hbars. induction pieces as [|x [|y l] IH]; [done..|].
  change (join_bars (x :: y :: l)) with (x ++ py "|||" ++ join_bars (y :: l)).
  rewrite !List.filter_app, Hbars, IH. reflexivity.
Qed.

(** X14: the tokens of the pairs of a row, joined within a post and put
    together with the delimiter between the posts, are the posts of the
    row, whitespace left out on both sides: preprocessing without the
    stopword filter loses nothing but whitespace. *)
Theorem X14_row_round_trip (r : row) :
  join_bars
    (map (fun p => List.filter (fun c => negb (is_space c)) (concat (snd p)))
         (values (fst (tokenize_data english [r] false))))
  = List.filter (fun c => negb (is_space c)) (posts r).
Proof.
  rewrite tokenize_data_values. simpl. rewrite app_nil_r.
  unfold row_pairs. rewrite map_map. simpl.
  rewrite (map_ext _ (List.filter (fun c => negb (is_space c))))
    by (intros tweet; apply covers_concat, findall_token_re_covers).
  rewrite <- filter_join_bars by reflexivity.
  by rewrite join_split_bars.
Qed.

End PreprocessorMore.

(** ** More on partitioned execution *)

Section PartitionsMore.

Context {A : Type}.

Lemma chunks_lookup (sizes : list nat) : forall (l : list A) i part,
  sum_list sizes = length l ->
  chunks sizes l !! i = Some part ->
  exists n, sizes !! i = Some n /\ length part = n.
Proof.
  induction sizes as [|n sizes IH]; intros l i part Hsum; simpl in *; [done|].
  destruct i as [|i]; simpl.
  - intros [= <-]. exists n. split; [done|]. rewrite length_take. lia.
  - apply IH. rewrite length_drop. lia.
Qed.

(** The parts [array_split] makes: as many as asked for, one after the
    other the array, the first [len % sections] of them one longer. *)
Lemma array_split_parts (ary : list A) (sections : nat) :
  1 <= sections ->
  exists parts,
    array_split ary sections = Ok parts
    /\ length parts = sections /\ concat parts = ary
    /\ forall i part, parts !! i = Some part ->
         length part = length ary / sections
                       + (if i <? length ary mod sections then 1 else 0).
Proof.
  intros Hn. destruct (array_split_concat ary sections Hn)
    as (parts & Hsplit & Hlen & Hcat).
  exists parts. repeat split; [done..|].
  intros i part Hi. unfold array_split in Hsplit.
  destruct (Nat.eqb_spec sections 0) as [->|Hne]; [lia|].
  injection Hsplit as <-.
  pose proof (Nat.div_mod_eq (length ary) sections) as Hdm.
  pose proof (Nat.mod_upper_bound (length ary) sections Hne) as Hlt.
  apply chunks_lookup in Hi as (n & Hn' & ->).
  - destruct (Nat.ltb_spec i (length ary mod sections)) as [Hi|Hi].
    + rewrite lookup_app_l in Hn' by (by rewrite length_replicate).
      by apply lookup_replicate in Hn' as [-> _].
    + rewrite lookup_app_r in Hn' by (by rewrite length_replicate).
      apply lookup_replicate in Hn' as [-> _]. lia.
  - rewrite sum_list_with_app, !sum_list_replicate. nia.
Qed.

End PartitionsMore.

Section ParallelMore.

(** X15: [parallelize] raises [ValueError] for a count of zero; for any
    other count it applies [func] to that many parts of the frame, which
    are one after the other the frame and of which the first
    [len % count] have one row more than [len // count]. *)
Theorem X15_parallelize_parts (cpu_count : nat)
    (func : list row -> token_frame) (df : list row) :
  (cpu_count = 0 /\ parallelize cpu_count func df = Raise ValueError)
  \/ (1 <= cpu_count
      /\ exists parts,
           parallelize cpu_count func df = Ok (pd_concat (map func parts))
           /\ length parts = cpu_count /\ concat parts = df
           /\ forall i part, parts !! i = Some part ->
                length part = length df / cpu_count
                              + (if i <? length df mod cpu_count then 1 else 0)).
Proof.
  destruct cpu_count as [|k]; [left; by split|]. right. split; [lia|].
  destruct (array_split_parts df (S k)) as (parts & Hsplit & H); [lia|].
  exists parts. split; [|exact H]. unfold parallelize. by rewrite Hsplit.
Qed.

(** X16: with one worker, [parallelize] returns what [func] returns for
    the whole frame. *)
Theorem X16_parallelize_one_worker (func : list row -> token_frame)
    (df : list row) :
  parallelize 1 func df = Ok (func df).
Proof.
  unfold parallelize, array_split. simpl Nat.eqb. cbv iota.
  rewrite Nat.mod_1_r, Nat.div_1_r. simpl.
  rewrite firstn_all. unfold pd_concat. simpl. by rewrite app_nil_r.
Qed.

Variable english : list str.
Variable filter_stopwords : bool.

Lemma tokenize_data_head (df : list row) :
  df <> [] ->
  exists pair rest,
    fst (tokenize_data english df filter_stopwords) = (0%Z, pair) :: rest.
Proof.
  intros Hne.
  pose proof (tokenize_data_values english filter_stopwords df) as Hv.
  unfold tokenize_data in *. destruct (fold_left _ df _) as [token_list out].
  simpl in *. rewrite values_DataFrame in Hv.
  destruct df as [|r df]; [done|]. simpl in Hv. unfold row_pairs at 1 in Hv.
  pose proof (split_bars_not_nil (posts r) []) as Hs.
  destruct (split_bars [] (posts r)) as [|t ts]; [done|].
  simpl in Hv. rewrite Hv. simpl. eauto.
Qed.

(** X17: with two or more workers and at least as many rows, the frame
    [parallelize] returns for [tokenize_data] has an index label twice:
    every part is labelled from 0 on and [pd.concat] keeps the labels. *)
Theorem X17_parallelize_repeats_labels (cpu_count : nat) (df : list row) :
  2 <= cpu_count -> cpu_count <= length df ->
  exists end_df,
    parallelize cpu_count
      (fun d => fst (tokenize_data english d filter_stopwords)) df = Ok end_df
    /\ ~ NoDup (map fst end_df).
Proof.
  intros Hk Hn.
  destruct (array_split_parts df cpu_count) as (parts & Hsplit & Hlen & _ & Hsz);
    [lia|].
  unfold parallelize. rewrite Hsplit. eexists. split; [reflexivity|].
  assert (Hq : 1 <= length df / cpu_count)
    by (apply Nat.div_le_lower_bound; lia).
  destruct parts as [|p0 [|p1 parts]]; simpl in Hlen; [lia..|].
  pose proof (Hsz 0 p0 eq_refl) as H0. pose proof (Hsz 1 p1 eq_refl) as H1.
  destruct (tokenize_data_head p0) as (x0 & t0 & E0);
    [intros ->; simpl in H0; lia|].
  destruct (tokenize_data_head p1) as (x1 & t1 & E1);
    [intros ->; simpl in H1; lia|].
  unfold pd_concat. simpl. rewrite E0, E1. simpl.
  intros Hnd. apply NoDup_cons in Hnd as [Hnot _]. apply Hnot.
  rewrite map_app. apply elem_of_app. right. left.
Qed.

End ParallelMore.

(** X17 at a frame of two rows and two workers. *)
Lemma X17_witness :
  exists end_df,
    parallelize 2 (fun d => fst (tokenize_data [] d false))
      [Row 0 (py "INTJ") (py "a"); Row 1 (py "ENFP") (py "b")] = Ok end_df
    /\ ~ NoDup (map fst end_df).
Proof.
  apply (X17_parallelize_repeats_labels [] false 2
           [Row 0 (py "INTJ") (py "a"); Row 1 (py "ENFP") (py "b")]);
    simpl; lia.
Defined.

(** ** Sorting strings *)

Lemma code_inj c d : code c = code d -> c = d.
Proof.
  unfold code. intros H.
  rewrite <- (ascii_N_embedding c), <- (ascii_N_embedding d). by rewrite H.
Qed.

Lemma str_leb_total a : forall b, str_leb a b = true \/ str_leb b a = true.
Proof.
  induction a as [|x a IH]; intros [|y b]; simpl; auto.
  destruct (N.ltb_spec (code x) (code y)), (N.ltb_spec (code y) (code x));
    auto; lia.
Qed.

Lemma str_leb_trans a : forall b c,
  str_leb a b = true -> str_leb b c = true -> str_leb a c = true.
Proof.
  induction a as [|x a IH]; intros [|y b] [|z c]; simpl; try done.
  destruct (N.ltb_spec (code x) (code y)), (N.ltb_spec (code y) (code x)),
           (N.ltb_spec (code y) (code z)), (N.ltb_spec (code z) (code y)),
           (N.ltb_spec (code x) (code z)), (N.ltb_spec (code z) (code x));
    try done; try lia.
  apply IH.
Qed.

Lemma str_leb_antisym a : forall b,
  str_leb a b = true -> str_leb b a = true -> a = b.
Proof.
  induction a as [|x a IH]; intros [|y b]; simpl; try done.
  destruct (N.ltb_spec (code x) (code y)), (N.ltb_spec (code y) (code x));
    try done; try lia.
  intros Hab Hba. f_equal; [apply code_inj; lia | by apply IH].
Qed.

Lemma insert_sorted_sorted x l :
  StronglySorted str_le l -> StronglySorted str_le (insert_sorted x l).
Proof.
  induction 1 as [|y l Hs IH Hall]; simpl.
  - repeat constructor.
  - destruct (str_leb y x) eqn:E.
    + constructor; [done|].
      apply Forall_forall. intros z [->|Hz]%elem_of_insert_sorted; [done|].
      by eapply Forall_forall in Hall.
    + assert (Hxy : str_le x y).
      { destruct (str_leb_total x y) as [?|Hyx]; [done | congruence]. }
      constructor; [by constructor|].
      constructor; [done|].
      apply Forall_forall. intros z Hz. eapply Forall_forall in Hall; [|done].
      by eapply str_leb_trans.
Qed.

Lemma sorted_fold_sorted l : forall acc,
  StronglySorted str_le acc ->
  StronglySorted str_le (fold_left (fun acc x => insert_sorted x acc) l acc).
Proof.
  induction l as [|x l IH]; intros acc Hacc; simpl; [done|].
  by apply IH, insert_sorted_sorted.
Qed.

(** [sorted] returns an ascending list. *)
Lemma sorted_sorted l : StronglySorted str_le (sorted l).
Proof. apply sorted_fold_sorted. constructor. Qed.

Lemma insert_sorted_perm x l : insert_sorted x l ≡ₚ x :: l.
Proof.
  induction l as [|y l IH]; simpl; [done|].
  destruct (str_leb y x); [|done]. rewrite IH. apply Permutation_swap.
Qed.

(** [sorted] returns the items of its argument, each as often as it is
    there. *)
Lemma sorted_perm l : sorted l ≡ₚ l.
Proof.
  unfold sorted.
  assert (H : forall acc, fold_left (fun acc x => insert_sorted x acc) l acc
                          ≡ₚ acc ++ l).
  { induction l as [|x l IH]; intros acc; simpl; [by rewrite app_nil_r|].
    rewrite IH, insert_sorted_perm. simpl. apply Permutation_middle. }
  by rewrite H.
Qed.

(** The last item of an ascending list is a greatest one. *)
Lemma sorted_last_greatest l :
  StronglySorted str_le l ->
  forall x, last l = Some x -> forall y, y ∈ l -> str_le y x.
Proof.
  induction 1 as [|z l Hs IH Hall]; [done|].
  intros x Hlast y Hy.
  destruct l as [|z' l'].
  - injection Hlast as <-. apply list_elem_of_singleton in Hy as ->.
    destruct (str_leb_total z z); done.
  - change (last (z :: z' :: l')) with (last (z' :: l')) in Hlast.
    apply elem_of_cons in Hy as [->|Hy]; [|by eapply IH].
    eapply Forall_forall in Hall; [exact Hall|].
    by eapply last_Some_elem_of.
Qed.

(** ** More on success rates *)

Section RatesMore.

Let step (st : gmap str Q * option (str * Q)) (g : str * list pred_row)
    : gmap str Q * option (str * Q) :=
  let frac := frac_of (snd g) in
  (<[fst g := frac]> (fst st), Some (fst g, frac)).

Lemma rates_fold_other (name : str) groups : forall st,
  name ∉ map fst groups ->
  fst (fold_left step groups st) !! name = fst st !! name.
Proof.
  induction groups as [|g groups IH]; intros st Hn; simpl in *; [done|].
  apply not_elem_of_cons in Hn as [Hne Hn].
  rewrite IH by done. simpl. by rewrite lookup_insert_ne.
Qed.

Lemma rates_fold_lookup (name : str) (q : Q) groups : forall st,
  fst (fold_left step groups st) !! name = Some q ->
  fst st !! name = Some q \/ exists g, (name, g) ∈ groups /\ q = frac_of g.
Proof.
  induction groups as [|[n g] groups IH]; intros st; simpl; [auto|].
  intros [H|(g' & Hin & ->)]%IH.
  - simpl in H. destruct (decide (n = name)) as [->|Hne].
    + rewrite lookup_insert_eq in H. injection H as <-.
      right. exists g. split; [left | done].
    + rewrite lookup_insert_ne in H by done. by left.
  - right. exists g'. split; [by right | done].
Qed.

Lemma rates_fold_nodup (name : str) groups : forall st g,
  NoDup (map fst groups) -> (name, g) ∈ groups ->
  fst (fold_left step groups st) !! name = Some (frac_of g).
Proof.
  induction groups as [|[n g0] groups IH]; intros st g Hnd Hin; simpl in *.
  - by apply elem_of_nil in Hin.
  - apply NoDup_cons in Hnd as [Hn Hnd].
    apply elem_of_cons in Hin as [[= -> ->]|Hin]; [|by apply IH].
    rewrite rates_fold_other by done. simpl. apply lookup_insert_eq.
Qed.

Lemma rates_fold_last groups : forall st,
  snd (fold_left step groups st)
  = match last groups with
    | Some g => Some (fst g, frac_of (snd g))
    | None => snd st
    end.
Proof.
  induction groups as [|g groups IH]; intros st; simpl; [done|].
  rewrite IH. simpl. destruct groups as [|g' groups]; [done|].
  change (last (g :: g' :: groups)) with (last (g' :: groups)).
  destruct (last (g' :: groups)) eqn:E; [done|]. by apply last_None in E.
Qed.

Lemma groupby_label_keys (labels_pred : list pred_row) :
  map fst (groupby_label labels_pred)
  = sorted (remove_dups (map label labels_pred)).
Proof. unfold groupby_label. rewrite map_map. simpl. apply map_id. Qed.

Lemma groupby_label_nodup (labels_pred : list pred_row) :
  NoDup (map fst (groupby_label labels_pred)).
Proof.
  rewrite groupby_label_keys, sorted_perm. apply NoDup_remove_dups.
Qed.

Lemma groupby_label_elem (labels_pred : list pred_row) name g :
  (name, g) ∈ groupby_label labels_pred
  <-> name ∈ map label labels_pred
      /\ g = filter (fun r => label r = name) labels_pred.
Proof.
  unfold groupby_label. rewrite list_elem_of_fmap. split.
  - intros (n & [= -> ->] & Hn). split; [|done].
    by rewrite elem_of_sorted, elem_of_remove_dups in Hn.
  - intros [Hn ->]. exists name. split; [done|].
    by rewrite elem_of_sorted, elem_of_remove_dups.
Qed.

Lemma labels_of_zip_eq (labels predictions : list str) :
  length labels = length predictions ->
  map label (zip_with (fun l p => PredRow l p (bool_decide (p = l)))
                      labels predictions) = labels.
Proof.
  revert predictions. induction labels as [|l labels IH]; intros [|p ps];
    simpl; try done.
  intros [= Hlen]. by rewrite IH.
Qed.

Lemma frac_of_group (labels predictions : list str) (name : str) :
  length labels = length predictions ->
  frac_of (filter (fun r => label r = name)
                  (zip_with (fun l p => PredRow l p (bool_decide (p = l)))
                            labels predictions))
  = Qmake (Z.of_nat (hits labels predictions name))
          (Pos.of_nat (occurrences labels name)).
Proof.
  intros Hlen. unfold frac_of, hits, occurrences. f_equal; [f_equal|f_equal].
  - revert predictions Hlen.
    induction labels as [|l labels IH]; intros [|p ps]; simpl; try done.
    intros [= Hlen]. rewrite !filter_cons. simpl.
    destruct (decide (l = name)) as [->|Hne].
    + rewrite filter_cons. simpl.
      destruct (decide (p = name)) as [->|Hp].
      * rewrite bool_decide_eq_true_2 by done.
        rewrite decide_True by done. rewrite decide_True by done.
        simpl. by rewrite IH.
      * rewrite bool_decide_eq_false_2 by done.
        rewrite decide_False by done.
        rewrite decide_False by (intros [_ ?]; done). by apply IH.
    + rewrite decide_False by (intros [? _]; done). by apply IH.
  - revert predictions Hlen.
    induction labels as [|l labels IH]; intros [|p ps]; simpl; try done.
    intros [= Hlen]. rewrite !filter_cons. simpl.
    destruct (decide (l = name)); simpl; by rewrite IH.
Qed.

(** X18: for sequences of one length, the mapping [success_rates] returns
    has a value exactly for the labels that occur among the actual ones,
    and the value of a label is the number of rows where it is both actual
    and predicted, over the number of rows where it is actual. *)
Theorem X18_success_rates_values (labels predictions : list str) :
  length labels = length predictions ->
  exists fracs : gmap str Q,
    success_rates labels predictions true = ([], Ok (Some fracs))
    /\ (forall name, is_Some (fracs !! name) <-> name ∈ labels)
    /\ (forall name, name ∈ labels ->
          fracs !! name
          = Some (Qmake (Z.of_nat (hits labels predictions name))
                        (Pos.of_nat (occurrences labels name)))).
Proof.
  intros Hlen. unfold success_rates. rewrite Hlen, Nat.eqb_refl. simpl.
  set (lp := zip_with _ labels predictions).
  destruct (rates_loop (groupby_label lp)) as [fracs last] eqn:E.
  exists fracs. split; [done|].
  assert (Hf : fracs = fst (fold_left step (groupby_label lp) (∅, None)))
    by (change (fold_left step (groupby_label lp) (∅, None))
          with (rates_loop (groupby_label lp)); by rewrite E).
  assert (Hval : forall name, name ∈ labels ->
            fracs !! name
            = Some (Qmake (Z.of_nat (hits labels predictions name))
                          (Pos.of_nat (occurrences labels name)))).
  { intros name Hname. rewrite Hf.
    rewrite (rates_fold_nodup name _ _ (filter (fun r => label r = name) lp)).
    - unfold lp. by rewrite frac_of_group.
    - apply groupby_label_nodup.
    - apply groupby_label_elem. split; [|done].
      unfold lp. by rewrite labels_of_zip_eq. }
  split; [|exact Hval].
  intros name. split.
  - intros [q Hq]. rewrite Hf in Hq.
    apply rates_fold_lookup in Hq as [Hq|(g & Hg & _)].
    + simpl in Hq. by rewrite lookup_empty in Hq.
    + apply groupby_label_elem in Hg as [Hg _].
      unfold lp in Hg. by rewrite labels_of_zip_eq in Hg.
  - intros Hname. rewrite (Hval name Hname). by eexists.
Qed.

Lemma frac_of_range (group : list pred_row) :
  (0 <= frac_of group)%Q /\ (frac_of group <= 1)%Q.
Proof.
  unfold frac_of.
  pose proof (length_filter (fun r => success r = true) group) as Hle.
  set (h := length (filter _ group)) in *. set (n := length group) in *.
  unfold Qle. simpl. split; [lia|].
  destruct n as [|n]; [assert (h = 0) as -> by lia; simpl; lia|].
  rewrite Z.mul_1_r, Z.mul_1_l.
  rewrite <- positive_nat_Z, Nat2Pos.id by done. lia.
Qed.

(** X19: every success rate [success_rates] returns lies between 0 and
    1. *)
Theorem X19_success_rates_range (labels predictions : list str)
    (fracs : gmap str Q) (name : str) (q : Q) :
  success_rates labels predictions true = ([], Ok (Some fracs)) ->
  fracs !! name = Some q ->
  (0 <= q)%Q /\ (q <= 1)%Q.
Proof.
  unfold success_rates.
  destruct (negb _); [discriminate|].
  set (lp := zip_with _ labels predictions).
  destruct (rates_loop (groupby_label lp)) as [fracs' last] eqn:E.
  intros [= <-] Hq.
  assert (Hf : fracs' = fst (fold_left step (groupby_label lp) (∅, None)))
    by (change (fold_left step (groupby_label lp) (∅, None))
          with (rates_loop (groupby_label lp)); by rewrite E).
  rewrite Hf in Hq. apply rates_fold_lookup in Hq as [Hq|(g & _ & ->)].
  - simpl in Hq. by rewrite lookup_empty in Hq.
  - apply frac_of_range.
Qed.

(** X20: with [return_results] false and sequences of one length,
    [success_rates] raises [NameError] when there are no rows; otherwise
    it returns nothing and prints one line only, the rate of a label that
    is the greatest of the actual labels. *)
Theorem X20_success_rates_prints_last_label (labels predictions : list str) :
  length labels = length predictions ->
  (labels = [] ->
     success_rates labels predictions false = ([], Raise NameError))
  /\ (labels <> [] ->
       exists name,
         success_rates labels predictions false
         = ([RateLine name
               (Qmake (Z.of_nat (hits labels predictions name))
                      (Pos.of_nat (occurrences labels name)))], Ok None)
         /\ name ∈ labels
         /\ forall l, l ∈ labels -> str_le l name).
Proof.
  intros Hlen. split.
  - intros ->. by destruct predictions.
  - intros Hne. unfold success_rates. rewrite Hlen, Nat.eqb_refl. simpl.
    set (lp := zip_with _ labels predictions).
    assert (Hlabels : map label lp = labels)
      by (unfold lp; by rewrite labels_of_zip_eq).
    pose proof (rates_fold_last (groupby_label lp) (∅, None)) as Hlast.
    change (fold_left step (groupby_label lp) (∅, None))
      with (rates_loop (groupby_label lp)) in Hlast.
    destruct (rates_loop (groupby_label lp)) as [fracs last]. simpl in Hlast.
    destruct (list.last (groupby_label lp)) as [[name g]|] eqn:El.
    + subst last. simpl.
      assert (Hin : (name, g) ∈ groupby_label lp) by (by eapply last_Some_elem_of).
      apply groupby_label_elem in Hin as [Hname ->].
      rewrite Hlabels in Hname.
      exists name. unfold lp at 1. rewrite frac_of_group by done.
      repeat split; [done|].
      intros l Hl.
      apply (sorted_last_greatest (map fst (groupby_label lp))).
      * rewrite groupby_label_keys. apply sorted_sorted.
      * by rewrite fmap_last, El.
      * rewrite groupby_label_keys, elem_of_sorted, elem_of_remove_dups.
        by rewrite Hlabels.
    + apply last_None in El.
      assert (Hk : map fst (groupby_label lp) = []) by (by rewrite El).
      rewrite groupby_label_keys, Hlabels in Hk.
      destruct labels as [|l labels]; [done|].
      assert (Hl : l ∈ sorted (remove_dups (l :: labels)))
        by (rewrite elem_of_sorted, elem_of_remove_dups; left).
      rewrite Hk in Hl. by apply elem_of_nil in Hl.
Qed.

End RatesMore.

(** X18 at two rows. *)
Lemma X18_witness :
  exists fracs : gmap str Q,
    success_rates (map py ["A"; "B"]) (map py ["A"; "A"]) true
    = ([], Ok (Some fracs))
    /\ (forall name, is_Some (fracs !! name) <-> name ∈ map py ["A"; "B"])
    /\ (forall name, name ∈ map py ["A"; "B"] ->
          fracs !! name
          = Some (Qmake (Z.of_nat (hits (map py ["A"; "B"]) (map py ["A"; "A"]) name))
                        (Pos.of_nat (occurrences (map py ["A"; "B"]) name)))).
Proof.
  apply (X18_success_rates_values (map py ["A"; "B"]) (map py ["A"; "A"])).
  reflexivity.
Defined.

(** X20 at three rows: the line printed is that of ["B"]. *)
Lemma X20_witness :
  exists name,
    success_rates (map py ["B"; "A"; "B"]) (map py ["B"; "A"; "A"]) false
    = ([RateLine name
          (Qmake (Z.of_nat (hits (map py ["B"; "A"; "B"])
                              (map py ["B"; "A"; "A"]) name))
                 (Pos.of_nat (occurrences (map py ["B"; "A"; "B"]) name)))],
       Ok None)
    /\ name ∈ map py ["B"; "A"; "B"]
    /\ forall l, l ∈ map py ["B"; "A"; "B"] -> str_le l name.
Proof.
  apply (X20_success_rates_prints_last_label
           (map py ["B"; "A"; "B"]) (map py ["B"; "A"; "A"])).
  - reflexivity.
  - discriminate.
Defined.

(** X19 at one row, predicted rightly. *)
Lemma X19_witness : (0 <= 1)%Q /\ (1 <= 1)%Q.
Proof.
  apply (X19_success_rates_range [py "A"] [py "A"] {[ py "A" := 1%Q ]}
           (py "A") 1%Q).
  - vm_compute. reflexivity.
  - vm_compute. reflexivity.
Defined.

(** ** More on grid search *)

Section GridSearchMore.

Variables pvalue score cv_results estimator data : Type.
Variable gtb : score -> score -> bool.
Variable GridSearchCV_fit :
  estimator -> gmap str (list pvalue) -> Z -> data -> data
  -> fitted pvalue score cv_results.

Lemma print_params_names (best_parameters : gmap str pvalue) names :
  forall lines,
  print_params pvalue score cv_results names best_parameters = (lines, Ok tt) ->
  omap line_name lines = names.
Proof.
  induction names as [|n names IH]; intros lines; simpl.
  - by intros [= <-].
  - destruct (best_parameters !! n) as [v|]; [|discriminate].
    destruct (print_params _ _ _ names best_parameters) as [out r].
    intros [= <- ->]. simpl. f_equal. by apply IH.
Qed.

Lemma sorted_keys_elem (parameters : gmap str (list pvalue)) name :
  name ∈ sorted_keys pvalue parameters <-> is_Some (parameters !! name).
Proof.
  unfold sorted_keys. rewrite elem_of_sorted, list_elem_of_fmap. split.
  - intros ([k v] & -> & Hkv). apply elem_of_map_to_list in Hkv. by exists v.
  - intros [v Hv]. exists (name, v). split; [done|].
    by apply elem_of_map_to_list.
Qed.

(** X22: when [grid_search] of [helper_functions.py] ends without an
    error, the parameter names of the lines it printed are the names of
    the grid, each once, in ascending order. *)
Theorem X22_grid_search_prints_sorted_names (clf : estimator)
    (parameters : gmap str (list pvalue)) (jobs : Z) (X y : data)
    (out : list (gs_line pvalue score cv_results))
    (v : option (gmap str pvalue * score * cv_results)) :
  HelperFunctions.grid_search pvalue score cv_results estimator data
    gtb GridSearchCV_fit clf parameters jobs X y = (out, Ok v) ->
  StronglySorted str_le (omap line_name out)
  /\ NoDup (omap line_name out)
  /\ forall name, name ∈ omap line_name out <-> is_Some (parameters !! name).
Proof.
  unfold HelperFunctions.grid_search, report_best.
  destruct (py_max _ _ _) as [[[bp bs] folds]|e]; [|discriminate].
  destruct (print_params _ _ _ _ bp) as [lines [[]|e]] eqn:Hprint;
    [|discriminate].
  intros [= <- _]. apply print_params_names in Hprint.
  rewrite !omap_app. simpl. rewrite !app_nil_r, Hprint.
  split; [apply sorted_sorted|]. split.
  - unfold sorted_keys. rewrite sorted_perm. apply NoDup_fst_map_to_list.
  - apply sorted_keys_elem.
Qed.

End GridSearchMore.

(** X22 at the search over [alpha]. *)
Lemma X22_witness :
  StronglySorted str_le
    (omap line_name [ParamLine Z Z unit (py "alpha") 10%Z; ScoreLine Z Z unit 70%Z;
                     ResultsLine Z Z unit tt])
  /\ NoDup (omap line_name [ParamLine Z Z unit (py "alpha") 10%Z;
                            ScoreLine Z Z unit 70%Z; ResultsLine Z Z unit tt])
  /\ forall name,
       name ∈ omap line_name [ParamLine Z Z unit (py "alpha") 10%Z;
                              ScoreLine Z Z unit 70%Z; ResultsLine Z Z unit tt]
       <-> is_Some (alpha_grid !! name).
Proof.
  apply (X22_grid_search_prints_sorted_names Z Z unit unit unit Z.gtb alpha_fit
           tt alpha_grid 1 tt tt _ None).
  vm_compute. reflexivity.
Defined.

(** ** Words of the cleaned posts *)

Lemma split_char_no_delimiter (d : ascii) (s : str) : forall cur piece,
  d ∉ cur -> piece ∈ split_char d cur s -> d ∉ piece.
Proof.
  induction s as [|c s IH]; intros cur piece Hcur; simpl.
  - by intros ->%list_elem_of_singleton.
  - unfold is_char. destruct (Ascii.eqb_spec d c) as [->|Hne].
    + intros [->|H]%elem_of_cons; [done|].
      apply (IH [] piece); [apply not_elem_of_nil | done].
    + apply IH. rewrite elem_of_app, list_elem_of_singleton. tauto.
Qed.

Lemma length_split_char (d : ascii) (s : str) : forall cur,
  length (split_char d cur s) = S (length (List.filter (is_char d) s)).
Proof.
  induction s as [|c s IH]; intros cur; simpl; [done|].
  destruct (is_char d c); simpl; by rewrite IH.
Qed.

Lemma elem_of_remove_char (d c : ascii) (s : str) :
  c ∈ remove_char d s <-> c ∈ s /\ c <> d.
Proof.
  unfold remove_char. rewrite !list_elem_of_In, List.filter_In.
  unfold is_char. rewrite negb_true_iff.
  destruct (Ascii.eqb_spec d c) as [->|Hne]; split; intros [? ?];
    split; congruence.
Qed.

Lemma lstrip_suffix (s : str) : lstrip s `suffix_of` s.
Proof.
  induction s as [|c s IH]; simpl; [done|].
  destruct (is_space c); [by apply suffix_cons_r | done].
Qed.

Lemma lstrip_head (s : str) c rest :
  lstrip s = c :: rest -> is_space c = false.
Proof.
  induction s as [|d s IH]; simpl; [done|].
  destruct (is_space d) eqn:E; [done|]. by intros [= <- _].
Qed.

Lemma lstrip_snoc (s : str) (c : ascii) :
  is_space c = false -> lstrip (s ++ [c]) = lstrip s ++ [c].
Proof.
  intros Hc. induction s as [|d s IH]; simpl; [by rewrite Hc|].
  by destruct (is_space d).
Qed.

Lemma lstrip_id (s : str) :
  (forall c rest, s = c :: rest -> is_space c = false) -> lstrip s = s.
Proof.
  destruct s as [|c s]; [done|]. intros H. simpl.
  by rewrite (H c s eq_refl).
Qed.

Lemma elem_of_rev_iff (s : str) (c : ascii) : c ∈ rev s <-> c ∈ s.
Proof. rewrite !list_elem_of_In. symmetry. apply in_rev. Qed.

Lemma elem_of_strip (s : str) (c : ascii) : c ∈ strip s -> c ∈ s.
Proof.
  unfold strip, rstrip. rewrite elem_of_rev_iff. intros H.
  pose proof (elem_of_suffix _ _ _ H (lstrip_suffix _)) as H'.
  rewrite elem_of_rev_iff in H'.
  exact (elem_of_suffix _ _ _ H' (lstrip_suffix _)).
Qed.

(** [strip] leaves no whitespace at either end. *)
Lemma strip_ends (s : str) :
  (forall c rest, strip s = c :: rest -> is_space c = false)
  /\ (forall c pre, strip s = pre ++ [c] -> is_space c = false).
Proof.
  unfold strip, rstrip. split.
  - intros c rest H.
    destruct (lstrip s) as [|d t] eqn:E; [done|].
    pose proof (lstrip_head _ _ _ E) as Hd.
    change (d :: t) with ([d] ++ t) in H. rewrite rev_app_distr in H.
    simpl in H. rewrite lstrip_snoc in H by done.
    rewrite rev_app_distr in H. simpl in H. by injection H as <- _.
  - intros c pre H.
    apply (f_equal (@rev ascii)) in H. rewrite rev_involutive in H.
    rewrite rev_app_distr in H. simpl in H. by apply lstrip_head in H.
Qed.

Lemma fold_snoc_map {A B : Type} (f : A -> B) (l : list A) : forall acc,
  fold_left (fun words word => words ++ [f word]) l acc = acc ++ map f l.
Proof.
  induction l as [|x l IH]; intros acc; simpl; [by rewrite app_nil_r|].
  by rewrite IH, <- app_assoc.
Qed.

Lemma gather_loop {A : Type} (f : str -> A) (posts : list str) : forall acc,
  fold_left (fun words tweet =>
               fold_left (fun words word => words ++ [f word])
                         (split_char "," [] tweet) words) posts acc
  = acc ++ concat (map (fun tweet => map f (split_char "," [] tweet)) posts).
Proof.
  induction posts as [|t posts IH]; intros acc; simpl; [by rewrite app_nil_r|].
  by rewrite IH, fold_snoc_map, <- app_assoc.
Qed.

Lemma gather_words_eq (posts : list str) :
  gather_words posts
  = concat (map (fun tweet => map clean_word (split_char "," [] tweet)) posts).
Proof. unfold gather_words. apply (gather_loop clean_word posts []). Qed.

(** X23: no word [gather_words] returns has a bracket, a quote or a comma
    in it, and none begins or ends with whitespace. *)
Theorem X23_gather_words_clean (posts : list str) (word : str) :
  word ∈ gather_words posts ->
  (forall c, c ∈ word -> c ∉ special_chars)
  /\ (forall c rest, word = c :: rest -> is_space c = false)
  /\ (forall c pre, word = pre ++ [c] -> is_space c = false).
Proof.
  rewrite gather_words_eq.
  rewrite list_elem_of_In, in_concat.
  intros (pieces & Hp%list_elem_of_In & Hw%list_elem_of_In).
  apply list_elem_of_fmap in Hp as (tweet & -> & _).
  apply list_elem_of_fmap in Hw as (piece & -> & Hpiece).
  apply split_char_no_delimiter in Hpiece; [|apply not_elem_of_nil].
  unfold clean_word. split; [|apply strip_ends].
  intros c Hc. apply elem_of_strip in Hc.
  repeat (apply elem_of_remove_char in Hc as [Hc ?]).
  unfold special_chars. simpl. rewrite !not_elem_of_cons.
  repeat split; try done; [congruence | apply not_elem_of_nil].
Qed.

(** X24: [gather_words] returns, for every post, one word more than the
    post has commas; a post without text gives one empty word. *)
Theorem X24_gather_words_count (posts : list str) :
  length (gather_words posts)
  = sum_list (map (fun tweet => S (length (List.filter (is_char ",") tweet)))
                  posts).
Proof.
  rewrite gather_words_eq.
  induction posts as [|t posts IH]; simpl; [done|].
  by rewrite length_app, length_map, length_split_char, IH.
Qed.

(** X26: [gather_words] of [helper_functions.py] returns the words
    [gather_words] of [NLPAnalysis.py] returns, each without opening
    brackets and double quotes, and stripped. *)
Theorem X26_gather_words_versions (posts : list str) :
  gather_words posts
  = map (fun word => strip (remove_char "[" (remove_char (ascii_of_N 34) word)))
        (NLPAnalysis.Functions.gather_words posts).
Proof.
  rewrite gather_words_eq. unfold NLPAnalysis.Functions.gather_words.
  rewrite (gather_loop (fun word => remove_char "'" (remove_char "]" word))
             posts []). simpl.
  induction posts as [|t posts IH]; simpl; [done|].
  by rewrite map_app, map_map, IH.
Qed.

(** X23 at the post [" ['a', 'b'] "] and its word ["b"]. *)
Lemma X23_witness :
  (forall c, c ∈ py "b" -> c ∉ special_chars)
  /\ (forall c rest, py "b" = c :: rest -> is_space c = false)
  /\ (forall c pre, py "b" = pre ++ [c] -> is_space c = false).
Proof.
  apply (X23_gather_words_clean [py " ['a', 'b'] "] (py "b")).
  vm_compute. right. left.
Defined.

Lemma split_char_app (d : ascii) (x s : str) : forall cur,
  d ∉ x -> split_char d cur (x ++ s) = split_char d (cur ++ x) s.
Proof.
  induction x as [|c x IH]; intros cur Hd; simpl; [by rewrite app_nil_r|].
  apply not_elem_of_cons in Hd as [Hne Hd].
  unfold is_char. destruct (Ascii.eqb_spec d c) as [?|_]; [done|].
  rewrite IH by done. by rewrite <- app_assoc.
Qed.

Lemma remove_char_absent (d : ascii) (w : str) :
  d ∉ w -> remove_char d w = w.
Proof.
  induction w as [|c w IH]; intros Hd; simpl; [done|].
  apply not_elem_of_cons in Hd as [Hne Hd].
  unfold is_char. destruct (Ascii.eqb_spec d c) as [?|_]; [done|].
  simpl. f_equal. by apply IH.
Qed.

Lemma strip_no_space (w : str) :
  (forall c, c ∈ w -> is_space c = false) -> strip w = w.
Proof.
  intros Hw. unfold strip, rstrip.
  rewrite (lstrip_id w) by (intros c rest ->; apply Hw; left).
  rewrite lstrip_id; [apply rev_involutive|].
  intros c rest E. apply Hw. apply elem_of_rev_iff. rewrite E. left.
Qed.

Lemma remove_special_app (a b : str) :
  remove_special (a ++ b) = remove_special a ++ remove_special b.
Proof. unfold remove_special, remove_char. by rewrite !List.filter_app. Qed.

Lemma remove_special_plain (w : str) : plain w -> remove_special w = w.
Proof.
  intros Hw.
  assert (H : forall d, d ∈ special_chars -> d ∉ w).
  { intros d Hd Hin. by apply (proj2 (Hw d Hin)). }
  unfold remove_special.
  rewrite (remove_char_absent "]" w)
    by (apply H, (bool_decide_unpack _); vm_compute; exact I).
  rewrite (remove_char_absent "'" w)
    by (apply H, (bool_decide_unpack _); vm_compute; exact I).
  rewrite (remove_char_absent (ascii_of_N 34) w)
    by (apply H, (bool_decide_unpack _); vm_compute; exact I).
  apply remove_char_absent, H, (bool_decide_unpack _). vm_compute. exact I.
Qed.

Lemma clean_word_quoted (cur tail w : str) :
  cur = py "[" \/ cur = py " " -> tail = [] \/ tail = py "]" -> plain w ->
  clean_word (cur ++ quoted w ++ tail) = w.
Proof.
  intros Hcur Htail Hw.
  change (clean_word (cur ++ quoted w ++ tail))
    with (strip (remove_special (cur ++ quoted w ++ tail))).
  unfold quoted. rewrite !remove_special_app, (remove_special_plain w Hw).
  assert (Hs : strip w = w) by (apply strip_no_space; intros c Hc; apply Hw, Hc).
  destruct Hcur as [-> | ->], Htail as [-> | ->]; simpl;
    rewrite ?app_nil_r; exact Hs.
Qed.

Lemma quoted_no_comma (w : str) : plain w -> "," %char ∉ quoted w.
Proof.
  intros Hw. unfold quoted. rewrite !not_elem_of_app. repeat split.
  - apply (bool_decide_unpack _). vm_compute. exact I.
  - intros Hin. apply (proj2 (Hw _ Hin)).
    apply (bool_decide_unpack _). vm_compute. exact I.
  - apply (bool_decide_unpack _). vm_compute. exact I.
Qed.

Lemma gather_repr (words : list str) : forall cur,
  words <> [] -> Forall plain words ->
  cur = py "[" \/ cur = py " " ->
  map clean_word
      (split_char "," cur (join_comma (map quoted words) ++ py "]"))
  = words.
Proof.
  induction words as [|w words IH]; intros cur Hne Hall Hcur; [done|].
  apply Forall_cons_1 in Hall as [Hw Hall].
  destruct words as [|w' words].
  - simpl join_comma. rewrite <- (app_nil_r (quoted w ++ py "]")).
    rewrite split_char_app.
    + cbn [split_char map]. f_equal. apply clean_word_quoted; auto.
    + rewrite not_elem_of_app. split; [by apply quoted_no_comma|].
      apply (bool_decide_unpack _). vm_compute. exact I.
  - change (join_comma (map quoted (w :: w' :: words)))
      with (quoted w ++ py ", " ++ join_comma (map quoted (w' :: words))).
    rewrite <- !app_assoc. rewrite split_char_app by (by apply quoted_no_comma).
    change (py ", " ++ join_comma (map quoted (w' :: words)) ++ py "]")
      with ("," %char :: " " %char
            :: (join_comma (map quoted (w' :: words)) ++ py "]")).
    cbn [split_char]. change (is_char "," ",") with true.
    change (is_char "," " ") with false. cbv iota.
    rewrite map_cons. f_equal.
    + rewrite <- (app_nil_r (quoted w)) at 1. apply clean_word_quoted; auto.
    + apply IH; [done | done | by right].
Qed.

(** X25: for a post that is a list of plain words written as
    ['w1', 'w2', ...], [gather_words] returns the words; for the empty list
    it returns one empty word. *)
Theorem X25_gather_words_reads_lists (words : list str) :
  Forall plain words ->
  gather_words [list_repr words]
  = match words with [] => [[]] | _ => words end.
Proof.
  intros Hall. rewrite gather_words_eq. simpl. rewrite app_nil_r.
  destruct words as [|w words]; [reflexivity|].
  unfold list_repr.
  change (py "[" ++ join_comma (map quoted (w :: words)) ++ py "]")
    with ("[" %char :: (join_comma (map quoted (w :: words)) ++ py "]")).
  cbn [split_char]. change (is_char "," "[") with false. cbv iota.
  apply gather_repr; [done | done | by left].
Qed.

(** X25 at the list of the words ["hi"] and [":)"]. *)
Lemma X25_witness :
  gather_words [list_repr (map py ["hi"; ":)"])] = map py ["hi"; ":)"].
Proof.
  apply (X25_gather_words_reads_lists (map py ["hi"; ":)"])).
  apply Forall_cons_2; [|apply Forall_cons_2; [|apply Forall_nil_2]];
    intros c Hc; apply list_elem_of_In in Hc; simpl in Hc;
    (repeat destruct Hc as [<-|Hc]); try destruct Hc;
    (split; [reflexivity | apply (bool_decide_unpack _); vm_compute; exact I]).
Defined.

(** ** The tokenizer of NLPAnalysis.py *)

Section ScriptTokenizer.

Import NLPAnalysis.Functions.

Variable english : list str.
Variable in_local_stopwords : str -> bool.

Lemma lines_loop_ok (csv_file : list (list str)) : forall i,
  Forall (fun line => length line = 2) csv_file ->
  lines_loop english in_local_stopwords i csv_file
  = (map (fun line => (nth 0 line [],
                       words_of english in_local_stopwords (nth 1 line [])))
         csv_file,
     filter (fun j => j mod 100 = 0) (seq i (length csv_file)),
     Ok tt).
Proof.
  induction csv_file as [|line rest IH]; intros i Hall; [done|].
  apply Forall_cons_1 in Hall as [Hline Hall].
  destruct line as [|ptype [|posts [|]]]; try discriminate Hline.
  cbn [lines_loop]. rewrite (IH (S i) Hall). simpl seq. rewrite filter_cons.
  destruct (Nat.eqb_spec (i mod 100) 0) as [E|E].
  - by rewrite decide_True by done.
  - by rewrite decide_False by done.
Qed.

(** X27: when every line of the csv file has two fields, [tokenize_data]
    of [NLPAnalysis.py] writes one row per line, not one per post, with the
    label of the line, and prints the counters 0, 100, 200, ... below the
    number of lines. *)
Theorem X27_script_tokenize_one_row_per_line (csv_file : list (list str)) :
  Forall (fun line => length line = 2) csv_file ->
  tokenize_data english in_local_stopwords csv_file
  = (map (fun line => (nth 0 line [],
                       words_of english in_local_stopwords (nth 1 line [])))
         csv_file,
     filter (fun j => j mod 100 = 0) (seq 0 (length csv_file)),
     Ok tt).
Proof. apply lines_loop_ok. Qed.

Lemma lines_loop_bad (good rest : list (list str)) (bad : list str) :
  forall i,
  Forall (fun line => length line = 2) good -> length bad <> 2 ->
  lines_loop english in_local_stopwords i (good ++ bad :: rest)
  = (map (fun line => (nth 0 line [],
                       words_of english in_local_stopwords (nth 1 line [])))
         good,
     filter (fun j => j mod 100 = 0) (seq i (length good)),
     Raise ValueError).
Proof.
  induction good as [|line good IH]; intros i Hgood Hbad.
  - simpl. destruct bad as [|a [|b [|]]]; try done.
  - apply Forall_cons_1 in Hgood as [Hline Hgood].
    destruct line as [|ptype [|posts [|]]]; try discriminate Hline.
    rewrite <- app_comm_cons. cbn [lines_loop]. rewrite (IH (S i) Hgood Hbad).
    simpl length. simpl seq. rewrite filter_cons.
    destruct (Nat.eqb_spec (i mod 100) 0) as [E|E].
    + by rewrite decide_True by done.
    + by rewrite decide_False by done.
Qed.

(** X28: at the first line that has not two fields [tokenize_data] of
    [NLPAnalysis.py] raises [ValueError]; the rows of the lines before it
    are written, the lines behind it are not read. *)
Theorem X28_script_tokenize_bad_line (good rest : list (list str))
    (bad : list str) :
  Forall (fun line => length line = 2) good -> length bad <> 2 ->
  tokenize_data english in_local_stopwords (good ++ bad :: rest)
  = (map (fun line => (nth 0 line [],
                       words_of english in_local_stopwords (nth 1 line [])))
         good,
     filter (fun j => j mod 100 = 0) (seq 0 (length good)),
     Raise ValueError).
Proof. apply lines_loop_bad. Qed.




End ScriptTokenizer.

(** X27 at a file of two lines. *)
Lemma X27_witness :
  NLPAnalysis.Functions.tokenize_data [py "the"] (fun _ => false)
    [[py "type"; py "posts"]; [py "INTJ"; py "Hi @bob the Cat|||x"]]
  = (map (fun line =>
            (nth 0 line [],
             NLPAnalysis.Functions.words_of [py "the"] (fun _ => false)
               (nth 1 line [])))
         [[py "type"; py "posts"]; [py "INTJ"; py "Hi @bob the Cat|||x"]],
     filter (fun j => j mod 100 = 0) (seq 0 2),
     Ok tt).
Proof.
  apply (X27_script_tokenize_one_row_per_line [py "the"] (fun _ => false)).
  repeat constructor.
Defined.

(** X28 at a file whose second line has one field. *)
Lemma X28_witness :
  NLPAnalysis.Functions.tokenize_data [] (fun _ => false)
    ([[py "INTJ"; py "a"]] ++ [py "ENFP"] :: [[py "INTP"; py "b"]])
  = (map (fun line =>
            (nth 0 line [],
             NLPAnalysis.Functions.words_of [] (fun _ => false) (nth 1 line [])))
         [[py "INTJ"; py "a"]],
     filter (fun j => j mod 100 = 0) (seq 0 1),
     Raise ValueError).
Proof.
  apply (X28_script_tokenize_bad_line [] (fun _ => false)
           [[py "INTJ"; py "a"]] [[py "INTP"; py "b"]] [py "ENFP"]).
  - repeat constructor.
  - simpl. lia.
Defined.


(** ** Mentions in NLPAnalysis.py *)

Section Mentions.

Import NLPAnalysis.Functions.

Lemma star_loop_some body n s : exists x, star_loop body Some n s = Some x.
Proof. destruct n; simpl; [eauto|]. destruct (body s _); eauto. Qed.

(** A mention is found wherever an [@] stands before a character that is
    no whitespace. *)
Lemma mention_found (c : ascii) (s : str) :
  is_space c = false ->
  exists j, match_at mention_or_url ("@" %char :: c :: s) = Some (S j).
Proof.
  intros Hc.
  assert (E : exists x,
            rmatch mention_or_url ("@" %char :: c :: s) Some = Some x).
  { unfold mention_or_url, Plus. cbn [rmatch].
    change (is_char "@" "@") with true. cbv iota. rewrite Hc. simpl negb.
    cbv iota.
    match goal with
    | |- context [star_loop ?b Some ?n ?t] =>
        destruct (star_loop_some b n t) as [x ->]
    end.
    by exists x. }
  destruct E as [x E].
  destruct (match_at mention_or_url ("@" %char :: c :: s)) as [[|j]|] eqn:Em.
  - apply match_at_prefix in Em as [_ Hpos]. specialize (Hpos eq_refl). lia.
  - by exists j.
  - unfold match_at in Em. by rewrite E in Em.
Qed.

(** Nothing the pattern matches begins with whitespace. *)
Lemma mention_not_at_space (c : ascii) (s : str) :
  is_space c = true -> match_at mention_or_url (c :: s) = None.
Proof.
  intros Hc. unfold match_at.
  each_char c; try (vm_compute in Hc; discriminate Hc); vm_compute; reflexivity.
Qed.

Lemma sub_from_mentions (s : str) : forall skip pre c post,
  sub_from mention_or_url skip s = pre ++ "@" %char :: c :: post ->
  is_space c = true.
Proof.
  induction s as [|a s IH]; intros skip pre c post; simpl.
  - by destruct pre.
  - destruct skip as [|j]; [|apply IH].
    assert (Hkeep : (forall j, match_at mention_or_url (a :: s) <> Some (S j)) ->
                    a :: sub_from mention_or_url 0 s
                    = pre ++ "@" %char :: c :: post ->
                    is_space c = true).
    { intros Hno E. destruct pre as [|b pre].
      - injection E as -> E. destruct s as [|c' s']; [discriminate E|].
        destruct (is_space c') eqn:Hc'.
        + simpl in E. rewrite (mention_not_at_space c' s' Hc') in E.
          by injection E as <- _.
        + destruct (mention_found c' s' Hc') as [j Hj]. by apply Hno in Hj.
      - injection E as _ E. by eapply (IH 0). }
    destruct (match_at mention_or_url (a :: s)) as [[|j]|] eqn:Em;
      [by apply Hkeep | apply IH | by apply Hkeep].
Qed.

(** X30: in the text [tokenize_data] of [NLPAnalysis.py] goes on with
    after its [re.sub], an [@] is never followed by a character that is no
    whitespace: every mention is taken out. *)
Theorem X30_script_removes_mentions (posts pre post : str) (c : ascii) :
  sub mention_or_url posts = pre ++ "@" %char :: c :: post ->
  is_space c = true.
Proof. apply sub_from_mentions. Qed.

End Mentions.

(** X30 at the posts ["a@ b @c"]: the first [@] stays, before a blank. *)
Lemma X30_witness : is_space " " = true.
Proof.
  apply (X30_script_removes_mentions (py "a@ b @c") (py "a") (py "b ") " ").
  vm_compute. reflexivity.
Defined.
